(** * RSA demonstration (main.py): a shallow embedding and its properties

    The Python module defines three functions ([get_primes],
    [are_relatively_prime], [make_key_pair]) and two named tuples
    ([PublicKey], [PrivateKey]) with one method each.  Python integers are
    unbounded, so they are modelled by [Z]; lists of integers by [list Z].
    Exceptions are modelled by an error monad, [while] loops by fuel, and the
    module [random] by a stream of raw draws.

    Python's [%] and [//] round towards minus infinity, as [Z.modulo] and
    [Z.div] do.  They differ only for a zero divisor, which the program never
    has: [get_primes] divides by entries of a list of numbers [>= 2],
    [are_relatively_prime] by candidates [>= 2], and [make_key_pair] by
    [(p - 1) * (q - 1)] inside a loop over [range(3, (p - 1) * (q - 1), 2)]. *)

From Stdlib Require Import ZArith Znumtheory Zpow_facts List Bool Lia Sorted.
From Stdlib Require Import Zmod.ZmodInv.
Import ListNotations.
Local Open Scope Z_scope.

(** ** The Python fragment the program uses *)

(** The exceptions the program can meet: [ValueError] is the spec's
    InvalidParameter, [AssertionError] its GenerationExhausted, and
    [IndexError] is what [random.choice] raises on an empty sequence. *)
Inductive exn : Set := ValueError | AssertionError | IndexError.

(** The result of running a piece of the program with a bound on the number
    of iterations of each [while] loop. *)
Inductive outcome (A : Type) : Type :=
| Ret (a : A)
| Raise (e : exn)
| OutOfFuel.

Arguments Ret {A} a.
Arguments Raise {A} e.
Arguments OutOfFuel {A}.

Definition bind {A B : Type} (c : outcome A) (k : A -> outcome B) : outcome B :=
  match c with
  | Ret a => k a
  | Raise e => Raise e
  | OutOfFuel => OutOfFuel
  end.

Notation "x <- c ;; k" := (bind c (fun x => k))
  (at level 61, c at next level, right associativity).

(** [range(lo, hi, step)] for a positive [step]. *)
Definition range_len (lo hi step : Z) : nat :=
  Z.to_nat ((hi - lo + step - 1) / step).

Definition py_range (lo hi step : Z) : list Z :=
  map (fun i => lo + step * Z.of_nat i) (seq 0 (range_len lo hi step)).

(** [a << k]: Python raises [ValueError] on a negative shift count. *)
Definition py_shl (a k : Z) : outcome Z :=
  if k <? 0 then Raise ValueError else Ret (Z.shiftl a k).

(** The inverse that [pow] uses for a negative exponent, found by search. *)
Definition mod_inverse (x n : Z) : option Z :=
  find (fun i => (x * i) mod n =? 1 mod n) (py_range 0 (Z.abs n) 1).

(** [pow(x, e, n)]: [ValueError] when [n] is zero or when [e] is negative and
    [x] has no inverse modulo [n].  [Zpow_mod] is square-and-multiply. *)
Definition py_pow (x e n : Z) : outcome Z :=
  if n =? 0 then Raise ValueError
  else if e <? 0 then
    match mod_inverse x n with
    | Some i => Ret (Zpow_mod i (- e) n)
    | None => Raise ValueError
    end
  else Ret (Zpow_mod x e n).

(** [int.bit_length]. *)
Definition bit_length (n : Z) : Z :=
  if n =? 0 then 0 else Z.log2 (Z.abs n) + 1.

(** The random source: an infinite sequence of raw draws.  [random.choice]
    reads the next draw and reduces it to an index of the sequence. *)
Definition rand : Type := nat -> nat.

Definition rand_next (r : rand) : rand := fun i => r (S i).

Definition choice (r : rand) (l : list Z) : outcome (Z * rand) :=
  match l with
  | [] => Raise IndexError
  | _ :: _ => Ret (nth (Nat.modulo (r 0%nat) (length l)) l 0, rand_next r)
  end.

(** [list.remove(x)]: drops the first occurrence, [ValueError] when absent. *)
Fixpoint list_remove (x : Z) (l : list Z) : outcome (list Z) :=
  match l with
  | [] => Raise ValueError
  | y :: t =>
      if y =? x then Ret t
      else t' <- list_remove x t ;; Ret (y :: t')
  end.

(** ** get_primes *)

(** The body of the outer [for]: the inner [for ... else] appends [n] when no
    prime found so far divides it, and stops at the first divisor. *)
Definition sieve_step (primes : list Z) (n : Z) : list Z :=
  if existsb (fun p => n mod p =? 0) primes then primes else primes ++ [n].

(** [primes = [2]] followed by [for n in range(3, stop + 1, 2)]. *)
Definition sieve (stop : Z) : list Z :=
  fold_left sieve_step (py_range 3 (stop + 1) 2) [2].

(** [while primes and primes[0] < start: del primes[0]]. *)
Fixpoint trim (fuel : nat) (start : Z) (primes : list Z) : outcome (list Z) :=
  match fuel with
  | O => OutOfFuel
  | S fuel' =>
      match primes with
      | p0 :: rest =>
          if p0 <? start then trim fuel' start rest else Ret primes
      | [] => Ret primes
      end
  end.

Definition get_primes (fuel : nat) (start stop : Z) : outcome (list Z) :=
  if start >=? stop then Ret []
  else trim fuel start (sieve stop).

(** ** are_relatively_prime *)

(** [a % n == b % n == 0] is the chained comparison
    [a % n == b % n and b % n == 0]. *)
Definition common_divisor (a b n : Z) : bool :=
  (a mod n =? b mod n) && (b mod n =? 0).

Definition are_relatively_prime (a b : Z) : bool :=
  negb (existsb (common_divisor a b) (py_range 2 (Z.min a b + 1) 1)).

(** ** The keys *)

Record PublicKey : Set := mkPublicKey { pub_n : Z; pub_e : Z }.
Record PrivateKey : Set := mkPrivateKey { priv_n : Z; priv_d : Z }.

Definition encrypt (k : PublicKey) (x : Z) : outcome Z :=
  py_pow x (pub_e k) (pub_n k).

Definition decrypt (k : PrivateKey) (x : Z) : outcome Z :=
  py_pow x (priv_d k) (priv_n k).

(** ** make_key_pair *)

Definition in_bounds (n_min n_max p q : Z) : bool :=
  (n_min <=? p * q) && (p * q <=? n_max).

(** The [while primes: ... else: raise AssertionError] loop that selects [p]
    and [q]. *)
Fixpoint pick_pq (fuel : nat) (r : rand) (primes : list Z) (n_min n_max : Z)
  : outcome (Z * Z) :=
  match fuel with
  | O => OutOfFuel
  | S fuel' =>
      match primes with
      | [] => Raise AssertionError
      | _ :: _ =>
          pr <- choice r primes ;;
          let p := fst pr in
          primes' <- list_remove p primes ;;
          let q_candidates := filter (in_bounds n_min n_max p) primes' in
          match q_candidates with
          | [] => pick_pq fuel' (snd pr) primes' n_min n_max
          | _ :: _ =>
              qr <- choice (snd pr) q_candidates ;;
              Ret (p, fst qr)
          end
      end
  end.

(** A [for x in l: if f(x): break] loop with an [else: raise AssertionError]. *)
Definition first_or_fail (f : Z -> bool) (l : list Z) : outcome Z :=
  match find f l with
  | Some x => Ret x
  | None => Raise AssertionError
  end.

Definition find_e (stop : Z) : outcome Z :=
  first_or_fail (fun e => are_relatively_prime e stop) (py_range 3 stop 2).

Definition find_d (e stop : Z) : outcome Z :=
  first_or_fail (fun d => d * e mod stop =? 1) (py_range 3 stop 2).

Definition exponents (p q : Z) : outcome (PublicKey * PrivateKey) :=
  let stop := (p - 1) * (q - 1) in
  e <- find_e stop ;;
  d <- find_d e stop ;;
  Ret (mkPublicKey (p * q) e, mkPrivateKey (p * q) d).

Definition make_key_pair (fuel : nat) (r : rand) (length : Z)
  : outcome (PublicKey * PrivateKey) :=
  if length <? 4 then Raise ValueError
  else
    n_min <- py_shl 1 (length - 1) ;;
    top <- py_shl 1 length ;;
    let n_max := top - 1 in
    start <- py_shl 1 (length / 2 - 1) ;;
    stop <- py_shl 1 (length / 2 + 1) ;;
    primes <- get_primes fuel start stop ;;
    pq <- pick_pq fuel r primes n_min n_max ;;
    exponents (fst pq) (snd pq).

(** ** The self-test under [if __name__ == '__main__'] *)

(** The self-test draws again after [make_key_pair] has returned, so the
    random source has to come back from the call.  [pick_pq_st] and
    [make_key_pair_st] are [pick_pq] and [make_key_pair] with the rest of
    the random source returned beside the result. *)
Fixpoint pick_pq_st (fuel : nat) (r : rand) (primes : list Z) (n_min n_max : Z)
  : outcome ((Z * Z) * rand) :=
  match fuel with
  | O => OutOfFuel
  | S fuel' =>
      match primes with
      | [] => Raise AssertionError
      | _ :: _ =>
          pr <- choice r primes ;;
          let p := fst pr in
          primes' <- list_remove p primes ;;
          let q_candidates := filter (in_bounds n_min n_max p) primes' in
          match q_candidates with
          | [] => pick_pq_st fuel' (snd pr) primes' n_min n_max
          | _ :: _ =>
              qr <- choice (snd pr) q_candidates ;;
              Ret ((p, fst qr), snd qr)
          end
      end
  end.

Definition make_key_pair_st (fuel : nat) (r : rand) (length : Z)
  : outcome ((PublicKey * PrivateKey) * rand) :=
  if length <? 4 then Raise ValueError
  else
    n_min <- py_shl 1 (length - 1) ;;
    top <- py_shl 1 length ;;
    let n_max := top - 1 in
    start <- py_shl 1 (length / 2 - 1) ;;
    stop <- py_shl 1 (length / 2 + 1) ;;
    primes <- get_primes fuel start stop ;;
    pqr <- pick_pq_st fuel r primes n_min n_max ;;
    keys <- exponents (fst (fst pqr)) (snd (fst pqr)) ;;
    Ret (keys, snd pqr).

(** [assert b]. *)
Definition py_assert (b : bool) : outcome unit :=
  if b then Ret tt else Raise AssertionError.

(** [random.randrange(k)]: [ValueError] on an empty range. *)
Definition randrange (r : rand) (k : Z) : outcome (Z * rand) :=
  if k <=? 0 then Raise ValueError
  else Ret (Z.of_nat (r 0%nat) mod k, rand_next r).

(** [len(bin(n)) - 2]: [bin] writes a sign, [0b] and the binary digits, and
    [0b0] for zero. *)
Definition bin_digits (n : Z) : Z :=
  if n =? 0 then 1 else if n <? 0 then bit_length n + 1 else bit_length n.

(** The six assertions on the fixed key pair. *)
Definition known_vector_test : outcome unit :=
  let public := mkPublicKey 2534665157 7 in
  let private := mkPrivateKey 2534665157 1810402843 in
  c1 <- encrypt public 123 ;;
  _ <- py_assert (c1 =? 2463995467) ;;
  c2 <- encrypt public 456 ;;
  _ <- py_assert (c2 =? 2022084991) ;;
  c3 <- encrypt public 123456 ;;
  _ <- py_assert (c3 =? 1299565302) ;;
  m1 <- decrypt private 2463995467 ;;
  _ <- py_assert (m1 =? 123) ;;
  m2 <- decrypt private 2022084991 ;;
  _ <- py_assert (m2 =? 456) ;;
  m3 <- decrypt private 1299565302 ;;
  py_assert (m3 =? 123456).

(** The body of [for length in range(4, 17)].  The state is the random
    source and the rows [(x, y)] printed so far by a run that completes. *)
Definition self_test_round (fuel : nat) (st : rand * list (Z * Z)) (length : Z)
  : outcome (rand * list (Z * Z)) :=
  kr <- make_key_pair_st fuel (fst st) length ;;
  let public := fst (fst kr) in
  let private := snd (fst kr) in
  _ <- py_assert (pub_n public =? priv_n private) ;;
  _ <- py_assert (bin_digits (pub_n public) =? length) ;;
  xr <- randrange (snd kr) (pub_n public - 2) ;;
  let x := fst xr in
  y <- encrypt public x ;;
  x' <- decrypt private y ;;
  _ <- py_assert (x' =? x) ;;
  c1 <- encrypt public (pub_n public - 1) ;;
  _ <- py_assert (c1 =? pub_n public - 1) ;;
  c2 <- encrypt public (pub_n public) ;;
  _ <- py_assert (c2 =? 0) ;;
  m1 <- decrypt private (pub_n public - 1) ;;
  _ <- py_assert (m1 =? pub_n public - 1) ;;
  m2 <- decrypt private (pub_n public) ;;
  _ <- py_assert (m2 =? 0) ;;
  Ret (snd xr, snd st ++ [(x, y)]).

(** A [for] loop whose body may raise. *)
Fixpoint for_each {S : Type} (body : S -> Z -> outcome S) (l : list Z) (s : S)
  : outcome S :=
  match l with
  | [] => Ret s
  | x :: t => s' <- body s x ;; for_each body t s'
  end.

Definition main (fuel : nat) (r : rand) : outcome (list (Z * Z)) :=
  _ <- known_vector_test ;;
  st <- for_each (self_test_round fuel) (py_range 4 17 1) (r, []) ;;
  Ret (snd st).

(** ** Vocabulary of the statements *)

(** The loop invariant of [get_primes]: the list holds, in ascending order,
    exactly the primes below the next candidate. *)
Definition primes_below (bound : Z) (l : list Z) : Prop :=
  StronglySorted Z.lt l /\ forall x, In x l <-> Z.prime x /\ x < bound.

(** What the methods need of a key pair: a shared positive modulus and odd
    positive exponents. *)
Definition valid_keys (pub : PublicKey) (priv : PrivateKey) : Prop :=
  priv_n priv = pub_n pub /\ 0 < pub_n pub /\
  (0 < pub_e pub /\ Z.odd (pub_e pub) = true) /\
  (0 < priv_d priv /\ Z.odd (priv_d priv) = true).

(** Iterations that suffice for the [while] loops run on a prime pool that
    was searched up to [stop]. *)
Definition enough_fuel (stop : Z) : nat := Z.to_nat stop + 2.

(** Whether the pool for [length] holds two different primes whose product
    has [length] bits. *)
Definition pool_has_pair (length : Z) : bool :=
  let pool :=
    filter (Z.leb (2 ^ (length / 2 - 1))) (sieve (2 ^ (length / 2 + 1))) in
  existsb
    (fun a =>
       existsb
         (fun b =>
            negb (a =? b) &&
            in_bounds (2 ^ (length - 1)) (2 ^ length - 1) a b)
         pool)
    pool.

(** ** Facts about the Python fragment *)

Lemma bind_ret {A B : Type} (c : outcome A) (k : A -> outcome B) (b : B) :
  bind c k = Ret b -> exists a, c = Ret a /\ k a = Ret b.
Proof.
  destruct c as [a | e | ]; simpl; intros H; try discriminate.
  exists a; split; [reflexivity | exact H].
Qed.

Lemma bind_raise {A B : Type} (c : outcome A) (k : A -> outcome B) (e : exn) :
  bind c k = Raise e ->
  c = Raise e \/ exists a, c = Ret a /\ k a = Raise e.
Proof.
  destruct c as [a | e' | ]; simpl; intros H; try discriminate.
  - right; exists a; split; [reflexivity | exact H].
  - left; injection H as ->; reflexivity.
Qed.

Lemma in_py_range (lo hi step x : Z) :
  0 < step ->
  In x (py_range lo hi step) <-> lo <= x < hi /\ (x - lo) mod step = 0.
Proof.
  intros Hstep. unfold py_range, range_len. rewrite in_map_iff. split.
  - intros [i [Hx Hi]]. apply in_seq in Hi. subst x.
    assert (Hq : Z.of_nat i < (hi - lo + step - 1) / step) by lia.
    assert (Hm : step * Z.of_nat i < hi - lo).
    { destruct (Z_lt_le_dec (step * Z.of_nat i) (hi - lo)) as [|Hge]; [assumption|].
      exfalso.
      assert ((hi - lo + step - 1) / step < Z.of_nat i + 1); [|lia].
      apply Z.div_lt_upper_bound; lia. }
    split; [nia|].
    replace (lo + step * Z.of_nat i - lo) with (Z.of_nat i * step) by ring.
    apply Z_mod_mult.
  - intros [[Hlo Hhi] Hmod].
    apply Z.mod_divide in Hmod; [|lia]. destruct Hmod as [k Hk].
    assert (0 <= k) by nia.
    exists (Z.to_nat k). rewrite Z2Nat.id by assumption. split; [lia|].
    apply in_seq. split; [lia|]. simpl.
    assert (k + 1 <= (hi - lo + step - 1) / step); [|lia].
    apply Z.div_le_lower_bound; [assumption|]. nia.
Qed.

Lemma py_range_snoc (lo step : Z) (k : nat) :
  map (fun i => lo + step * Z.of_nat i) (seq 0 (S k)) =
  map (fun i => lo + step * Z.of_nat i) (seq 0 k) ++ [lo + step * Z.of_nat k].
Proof.
  rewrite seq_S, map_app. reflexivity.
Qed.

Lemma py_pow_spec (x e n : Z) :
  n <> 0 -> 0 <= e -> py_pow x e n = Ret (x ^ e mod n).
Proof.
  intros Hn He. unfold py_pow.
  destruct (Z.eqb_spec n 0) as [|_]; [contradiction|].
  destruct (Z.ltb_spec e 0) as [|_]; [lia|].
  rewrite Zpow_mod_correct by assumption. reflexivity.
Qed.

Lemma py_shl_spec (k : Z) : 0 <= k -> py_shl 1 k = Ret (2 ^ k).
Proof.
  intros Hk. unfold py_shl.
  destruct (Z.ltb_spec k 0) as [|_]; [lia|].
  rewrite Z.shiftl_1_l. reflexivity.
Qed.

(** ** Trial division against the primes found so far *)

Lemma prime_divisor (n : Z) : 2 <= n -> exists p, Z.prime p /\ (p | n).
Proof.
  induction n as [n IH] using (well_founded_induction (Z.lt_wf 2)).
  intros Hn. destruct (prime_dec n) as [Hp | Hnp].
  - exists n. split; [apply prime_alt; assumption | apply Z.divide_refl].
  - destruct (not_prime_divide n ltac:(lia) Hnp) as [m [Hm Hdiv]].
    destruct (IH m ltac:(lia) ltac:(lia)) as [p [Hp Hpm]].
    exists p. split; [assumption | eapply Z.divide_trans; eassumption].
Qed.

Lemma even_not_prime (k : Z) : 2 <= k -> ~ Z.prime (2 * k).
Proof.
  intros Hk [_ Hp]. apply (Hp 2); [lia | exists k; ring].
Qed.

Lemma has_divisor_iff (primes : list Z) (n : Z) :
  existsb (fun p => n mod p =? 0) primes = true <->
  exists p, In p primes /\ n mod p = 0.
Proof.
  rewrite existsb_exists. split; intros [p [Hin Hp]]; exists p; split;
    try assumption; apply Z.eqb_eq; assumption.
Qed.

Lemma sorted_snoc (l : list Z) (n : Z) :
  StronglySorted Z.lt l -> (forall x, In x l -> x < n) ->
  StronglySorted Z.lt (l ++ [n]).
Proof.
  induction l as [| a l IH]; simpl; intros Hs Hlt.
  - constructor; constructor.
  - apply StronglySorted_inv in Hs. destruct Hs as [Hs Ha].
    constructor.
    + apply IH; [assumption | intros x Hx; apply Hlt; right; assumption].
    + apply Forall_app. split; [assumption|].
      constructor; [apply Hlt; left; reflexivity | constructor].
Qed.

Lemma sieve_step_inv (l : list Z) (i : Z) :
  0 <= i ->
  primes_below (3 + 2 * i) l ->
  primes_below (3 + 2 * (i + 1)) (sieve_step l (3 + 2 * i)).
Proof.
  intros Hi [Hs Hin]. set (n := 3 + 2 * i) in *.
  assert (Heven : ~ Z.prime (n + 1)).
  { replace (n + 1) with (2 * (i + 2)) by (unfold n; ring).
    apply even_not_prime; lia. }
  unfold sieve_step. destruct (existsb _ l) eqn:E.
  - apply has_divisor_iff in E. destruct E as [p [Hp Hmod]].
    apply Hin in Hp. destruct Hp as [Hp Hlt].
    pose proof (Z.prime_ge_2 _ Hp) as Hp2.
    assert (Hn : ~ Z.prime n).
    { intros [_ Hn]. apply Z.mod_divide in Hmod; [|lia].
      apply (Hn p); [lia | assumption]. }
    split; [assumption|]. intros x. rewrite Hin. split.
    + intros [Hx Hxn]. split; [assumption | lia].
    + intros [Hx Hxn]. split; [assumption|].
      destruct (Z.eq_dec x n) as [-> | Hne]; [contradiction|].
      destruct (Z.eq_dec x (n + 1)) as [-> | Hne']; [contradiction|].
      unfold n in *; lia.
  - assert (Hn : Z.prime n).
    { split; [unfold n; lia|]. intros m Hm Hdiv.
      destruct (prime_divisor m ltac:(lia)) as [p [Hp Hpm]].
      pose proof (Z.prime_ge_2 _ Hp) as Hp2.
      assert (Hle : p <= m) by (apply Z.divide_pos_le; [lia | assumption]).
      assert (Hex : existsb (fun p => n mod p =? 0) l = true).
      { apply has_divisor_iff. exists p. split.
        - apply Hin. split; [assumption | lia].
        - apply Z.mod_divide; [lia|]. eapply Z.divide_trans; eassumption. }
      congruence. }
    split.
    + apply sorted_snoc; [assumption|]. intros x Hx. apply Hin in Hx. tauto.
    + intros x. rewrite in_app_iff, Hin. cbn [In]. split.
      * intros [[Hx Hxn] | [Hx | []]].
        -- split; [assumption | unfold n in *; lia].
        -- rewrite <- Hx. split; [assumption | unfold n; lia].
      * intros [Hx Hxn].
        destruct (Z.eq_dec x n) as [-> | Hne]; [right; left; reflexivity|].
        destruct (Z.eq_dec x (n + 1)) as [-> | Hne']; [contradiction|].
        left. split; [assumption | unfold n in *; lia].
Qed.

Lemma sieve_candidates (k : nat) :
  primes_below (3 + 2 * Z.of_nat k)
    (fold_left sieve_step (map (fun i => 3 + 2 * Z.of_nat i) (seq 0 k)) [2]).
Proof.
  induction k as [| k IH].
  - simpl. split.
    + repeat constructor.
    + intros x. simpl. split.
      * intros [<- | []]. split; [apply Z.prime_2 | lia].
      * intros [Hx Hlt]. pose proof (Z.prime_ge_2 _ Hx). left; lia.
  - rewrite py_range_snoc, fold_left_app. cbn [fold_left].
    replace (3 + 2 * Z.of_nat (S k)) with (3 + 2 * (Z.of_nat k + 1)) by lia.
    apply sieve_step_inv; [lia | assumption].
Qed.

Lemma sieve_sorted (stop : Z) : StronglySorted Z.lt (sieve stop).
Proof. apply (sieve_candidates (range_len 3 (stop + 1) 2)). Qed.

Lemma sieve_prime (stop x : Z) : In x (sieve stop) -> Z.prime x.
Proof.
  intros Hx. apply (sieve_candidates (range_len 3 (stop + 1) 2)) in Hx. tauto.
Qed.

Lemma sieve_in (stop x : Z) :
  2 <= stop -> In x (sieve stop) <-> Z.prime x /\ x <= stop.
Proof.
  intros Hstop. unfold sieve, py_range.
  destruct (sieve_candidates (range_len 3 (stop + 1) 2)) as [_ Hin].
  rewrite Hin. unfold range_len.
  replace (stop + 1 - 3 + 2 - 1) with (stop - 1) by ring.
  pose proof (Z.div_mod (stop - 1) 2 ltac:(lia)) as Hdm.
  pose proof (Z.mod_pos_bound (stop - 1) 2 ltac:(lia)) as Hr.
  assert (Hq : 1 <= (stop - 1) / 2 \/ stop = 2) by lia.
  rewrite Z2Nat.id by (apply Z.div_pos; lia).
  split; intros [Hx Hb]; (split; [assumption|]); [|lia].
  destruct (Z.eq_dec x (stop + 1)) as [-> | Hne]; [|lia].
  exfalso. destruct Hq as [Hq | ->].
  - assert (Hr0 : (stop - 1) mod 2 = 0) by lia.
    apply (even_not_prime ((stop - 1) / 2 + 1)); [lia|].
    replace (2 * ((stop - 1) / 2 + 1)) with (stop + 1) by lia. assumption.
  - simpl in Hb. lia.
Qed.

Lemma sieve_length (stop : Z) : (length (sieve stop) <= Z.to_nat stop + 1)%nat.
Proof.
  assert (Hfold : forall l acc,
    (length (fold_left sieve_step l acc) <= length acc + length l)%nat).
  { induction l as [| n l IH]; intros acc; cbn [fold_left length]; [lia|].
    specialize (IH (sieve_step acc n)).
    assert (length (sieve_step acc n) <= S (length acc))%nat; [|lia].
    unfold sieve_step. destruct (existsb _ acc); [lia|].
    rewrite length_app. simpl. lia. }
  unfold sieve. specialize (Hfold (py_range 3 (stop + 1) 2) [2]).
  assert (Hlen : length (py_range 3 (stop + 1) 2) = Z.to_nat ((stop - 1) / 2)).
  { unfold py_range, range_len. rewrite length_map, length_seq.
    do 2 f_equal. ring. }
  rewrite Hlen in Hfold. cbn [length] in Hfold.
  destruct (Z_lt_le_dec stop 0) as [Hneg | Hpos].
  - assert ((stop - 1) / 2 < 0) by (apply Z.div_lt_upper_bound; lia). lia.
  - assert ((stop - 1) / 2 <= stop) by (apply Z.div_le_upper_bound; lia). lia.
Qed.

(** ** The prefix trim *)

Lemma filter_all (f : Z -> bool) (l : list Z) :
  Forall (fun x => f x = true) l -> filter f l = l.
Proof.
  induction 1 as [| x l Hx _ IH]; simpl; [reflexivity|].
  rewrite Hx, IH. reflexivity.
Qed.

Lemma trim_sorted (fuel : nat) (start : Z) (l l' : list Z) :
  StronglySorted Z.lt l -> trim fuel start l = Ret l' ->
  l' = filter (Z.leb start) l.
Proof.
  revert l. induction fuel as [| fuel IH]; intros l Hs; simpl; [discriminate|].
  destruct l as [| a l]; [intros [= <-]; reflexivity|].
  apply StronglySorted_inv in Hs. destruct Hs as [Hs Ha].
  destruct (Z.ltb_spec a start) as [Hlt | Hge].
  - intros H. cbn [filter]. destruct (Z.leb_spec start a); [lia|].
    apply IH; assumption.
  - intros [= <-]. symmetry. apply filter_all. constructor.
    + apply Z.leb_le. assumption.
    + eapply Forall_impl; [|exact Ha]. intros x Hx. apply Z.leb_le. lia.
Qed.

Lemma trim_fuel (fuel : nat) (start : Z) (l : list Z) :
  (length l < fuel)%nat -> exists l', trim fuel start l = Ret l'.
Proof.
  revert l. induction fuel as [| fuel IH]; intros l Hlen; [lia|].
  destruct l as [| a l]; simpl; [eexists; reflexivity|].
  destruct (a <? start); [|eexists; reflexivity].
  apply IH. simpl in Hlen. lia.
Qed.

Lemma trim_no_raise (fuel : nat) (start : Z) (l : list Z) (e : exn) :
  trim fuel start l <> Raise e.
Proof.
  revert l. induction fuel as [| fuel IH]; intros l; simpl; [discriminate|].
  destruct l as [| a l]; [discriminate|].
  destruct (a <? start); [apply IH | discriminate].
Qed.

(** ** get_primes: what it returns *)

Lemma get_primes_empty (fuel : nat) (start stop : Z) :
  stop <= start -> get_primes fuel start stop = Ret [].
Proof.
  intros H. unfold get_primes.
  destruct (Z.geb_spec start stop); [reflexivity | lia].
Qed.

Lemma get_primes_filter (fuel : nat) (start stop : Z) (l : list Z) :
  start < stop -> get_primes fuel start stop = Ret l ->
  l = filter (Z.leb start) (sieve stop).
Proof.
  intros Hlt. unfold get_primes.
  destruct (Z.geb_spec start stop); [lia|].
  apply trim_sorted, sieve_sorted.
Qed.

Lemma sorted_filter (f : Z -> bool) (l : list Z) :
  StronglySorted Z.lt l -> StronglySorted Z.lt (filter f l).
Proof.
  induction 1 as [| a l Hs IH Ha]; simpl; [constructor|].
  destruct (f a); [|assumption].
  constructor; [assumption|].
  apply Forall_forall. intros x Hx. apply filter_In in Hx.
  rewrite Forall_forall in Ha. apply Ha. tauto.
Qed.

Lemma get_primes_sound (fuel : nat) (start stop : Z) (l : list Z) :
  get_primes fuel start stop = Ret l ->
  StronglySorted Z.lt l /\ Forall Z.prime l.
Proof.
  intros H. destruct (Z_lt_le_dec start stop) as [Hlt | Hge].
  - apply get_primes_filter in H; [|assumption]. subst l. split.
    + apply sorted_filter, sieve_sorted.
    + apply Forall_forall. intros x Hx. apply filter_In in Hx.
      apply (sieve_prime stop). tauto.
  - rewrite get_primes_empty in H by assumption. injection H as <-.
    split; constructor.
Qed.

(** For [2 <= stop] the result is the ascending list of the primes of
    [[start, stop]]. *)
Lemma get_primes_spec (fuel : nat) (start stop : Z) (l : list Z) :
  start < stop -> 2 <= stop -> get_primes fuel start stop = Ret l ->
  StronglySorted Z.lt l /\
  forall x, In x l <-> Z.prime x /\ start <= x <= stop.
Proof.
  intros Hlt Hstop H. split; [eapply get_primes_sound; eassumption|].
  apply get_primes_filter in H; [|assumption]. subst l.
  intros x. rewrite filter_In, sieve_in by assumption.
  rewrite Z.leb_le. tauto.
Qed.

(** Below [2] the seed is all there is, and it is returned. *)
Lemma get_primes_small_stop (fuel : nat) (start stop : Z) :
  start < stop -> stop < 2 -> get_primes (S fuel) start stop = Ret [2].
Proof.
  intros Hlt Hstop. unfold get_primes.
  destruct (Z.geb_spec start stop); [lia|].
  unfold sieve, py_range, range_len.
  assert (Hq : (stop + 1 - 3 + 2 - 1) / 2 <= 0)
    by (apply Z.div_le_upper_bound; lia).
  replace (Z.to_nat ((stop + 1 - 3 + 2 - 1) / 2)) with 0%nat by lia.
  cbn [seq map fold_left trim].
  destruct (Z.ltb_spec 2 start); [lia | reflexivity].
Qed.

Lemma get_primes_terminates (fuel : nat) (start stop : Z) :
  (Z.to_nat stop + 1 < fuel)%nat ->
  exists l, get_primes fuel start stop = Ret l.
Proof.
  intros Hfuel. unfold get_primes.
  destruct (start >=? stop); [eexists; reflexivity|].
  apply trim_fuel. pose proof (sieve_length stop). lia.
Qed.

Lemma get_primes_no_raise (fuel : nat) (start stop : Z) (e : exn) :
  get_primes fuel start stop <> Raise e.
Proof.
  unfold get_primes. destruct (start >=? stop); [discriminate|].
  apply trim_no_raise.
Qed.

(** ** are_relatively_prime: the divisor scan *)

Lemma common_divisor_iff (a b n : Z) :
  common_divisor a b n = true <-> a mod n = 0 /\ b mod n = 0.
Proof.
  unfold common_divisor. rewrite andb_true_iff, !Z.eqb_eq. lia.
Qed.

Lemma scan_range (a b n : Z) :
  In n (py_range 2 (Z.min a b + 1) 1) <-> 2 <= n <= Z.min a b.
Proof.
  rewrite in_py_range by lia. rewrite Z.mod_1_r. lia.
Qed.

Lemma are_relatively_prime_false (a b : Z) :
  are_relatively_prime a b = false <->
  exists n, 2 <= n <= Z.min a b /\ a mod n = 0 /\ b mod n = 0.
Proof.
  unfold are_relatively_prime. rewrite negb_false_iff, existsb_exists.
  split; intros [n [Hn Hd]]; exists n.
  - apply scan_range in Hn. apply common_divisor_iff in Hd. tauto.
  - split; [apply scan_range; assumption | apply common_divisor_iff; assumption].
Qed.

Lemma are_relatively_prime_gcd (a b : Z) :
  0 < a -> 0 < b -> (are_relatively_prime a b = true <-> Z.gcd a b = 1).
Proof.
  intros Ha Hb. rewrite <- not_false_iff_true, are_relatively_prime_false.
  split.
  - intros Hno.
    pose proof (Z.gcd_nonneg a b) as Hg0.
    assert (Hg : Z.gcd a b <> 0) by (rewrite Z.gcd_eq_0; lia).
    destruct (Z.eq_dec (Z.gcd a b) 1) as [|Hne]; [assumption | exfalso].
    apply Hno. exists (Z.gcd a b).
    pose proof (Z.gcd_divide_l a b) as Hl. pose proof (Z.gcd_divide_r a b) as Hr.
    pose proof (Z.divide_pos_le _ _ Ha Hl). pose proof (Z.divide_pos_le _ _ Hb Hr).
    repeat split; try lia; apply Z.mod_divide; (lia || assumption).
  - intros Hg [n [Hn [Hda Hdb]]].
    apply Z.mod_divide in Hda; [|lia]. apply Z.mod_divide in Hdb; [|lia].
    pose proof (Z.gcd_greatest _ _ _ Hda Hdb) as Hd. rewrite Hg in Hd.
    apply Z.divide_pos_le in Hd; lia.
Qed.

(** With [min a b <= 1] there is nothing to scan. *)
Lemma are_relatively_prime_small (a b : Z) :
  Z.min a b <= 1 -> are_relatively_prime a b = true.
Proof.
  intros Hmin. apply not_false_iff_true. rewrite are_relatively_prime_false.
  intros [n [Hn _]]. lia.
Qed.

(** ** The arithmetic behind the round trip *)

Lemma pow_fermat (p x m : Z) :
  Z.prime p -> 0 <= m -> x ^ (m * (p - 1) + 1) mod p = x mod p.
Proof.
  intros Hp Hm. pose proof (Z.prime_ge_2 _ Hp) as Hp2.
  rewrite Z.pow_add_r, Z.pow_1_r by nia.
  rewrite (Z.mul_comm m), Z.pow_mul_r by lia.
  rewrite Z.mul_mod by lia.
  destruct (Z.eq_dec (x mod p) 0) as [H0 | Hnz].
  - rewrite H0, Z.mul_0_r. apply Z.mod_0_l. lia.
  - rewrite <- Z.mod_pow_l, (Z.fermat_nz p x Hp Hnz).
    rewrite Z.pow_1_l, Z.mod_1_l, Z.mul_1_l, Z.mod_mod by lia. reflexivity.
Qed.

Lemma divide_coprime_mul (p q c : Z) :
  Z.gcd p q = 1 -> (p | c) -> (q | c) -> (p * q | c).
Proof.
  intros Hg [k ->] Hq.
  rewrite Z.mul_comm in Hq. apply Z.gauss in Hq; [|rewrite Z.gcd_comm; exact Hg].
  destruct Hq as [j ->]. exists j. ring.
Qed.

Lemma distinct_primes_coprime (p q : Z) :
  Z.prime p -> Z.prime q -> p <> q -> Z.gcd p q = 1.
Proof.
  intros Hp Hq Hne. apply Z.coprime_prime_l; [assumption|].
  intros Hd. apply Hne. apply Z.divide_prime_prime; assumption.
Qed.

Lemma pow_totient (p q k x : Z) :
  Z.prime p -> Z.prime q -> p <> q -> 0 <= k ->
  x ^ (k * ((p - 1) * (q - 1)) + 1) mod (p * q) = x mod (p * q).
Proof.
  intros Hp Hq Hne Hk.
  pose proof (Z.prime_ge_2 _ Hp) as Hp2. pose proof (Z.prime_ge_2 _ Hq) as Hq2.
  apply Z.cong_iff_0. apply Z.mod_divide; [nia|].
  apply divide_coprime_mul.
  - apply distinct_primes_coprime; assumption.
  - apply Z.mod_divide; [lia|]. apply Z.cong_iff_0.
    replace (k * ((p - 1) * (q - 1))) with (k * (q - 1) * (p - 1)) by ring.
    apply pow_fermat; [assumption | nia].
  - apply Z.mod_divide; [lia|]. apply Z.cong_iff_0.
    replace (k * ((p - 1) * (q - 1))) with (k * (p - 1) * (q - 1)) by ring.
    apply pow_fermat; [assumption | nia].
Qed.

Lemma rsa_round_trip (p q e d x : Z) :
  Z.prime p -> Z.prime q -> p <> q -> 0 <= e -> 0 <= d ->
  d * e mod ((p - 1) * (q - 1)) = 1 ->
  0 <= x < p * q ->
  (x ^ e mod (p * q)) ^ d mod (p * q) = x.
Proof.
  intros Hp Hq Hne He Hd Hde Hx.
  pose proof (Z.prime_ge_2 _ Hp) as Hp2. pose proof (Z.prime_ge_2 _ Hq) as Hq2.
  set (phi := (p - 1) * (q - 1)) in *.
  assert (Hphi : 1 <= phi) by (unfold phi; nia).
  assert (Hphi1 : phi <> 1) by (intros E; rewrite E, Z.mod_1_r in Hde; lia).
  pose proof (Z.div_mod (d * e) phi ltac:(lia)) as Hdm. rewrite Hde in Hdm.
  assert (Hk : 0 <= d * e / phi) by (apply Z.div_pos; nia).
  rewrite Z.mod_pow_l, <- Z.pow_mul_r by assumption.
  replace (e * d) with (d * e / phi * phi + 1) by lia.
  unfold phi. rewrite pow_totient by assumption.
  apply Z.mod_small. assumption.
Qed.

(** ** Selecting [p] and [q] *)

Lemma choice_cons (r : rand) (a : Z) (l : list Z) :
  exists x, choice r (a :: l) = Ret (x, rand_next r) /\ In x (a :: l).
Proof.
  eexists. split; [reflexivity|].
  apply nth_In. apply Nat.mod_upper_bound. discriminate.
Qed.

Lemma choice_in (r r' : rand) (l : list Z) (x : Z) :
  choice r l = Ret (x, r') -> In x l.
Proof.
  destruct l as [| a l]; [discriminate|].
  destruct (choice_cons r a l) as [y [Hy Hin]]. rewrite Hy.
  intros [= <- _]. assumption.
Qed.

Lemma list_remove_in (x : Z) (l : list Z) :
  In x l -> exists l', list_remove x l = Ret l'.
Proof.
  induction l as [| y t IH]; simpl; [intros []|].
  intros Hin. destruct (Z.eqb_spec y x) as [| Hne]; [eexists; reflexivity|].
  destruct IH as [t' Ht']; [destruct Hin; [contradiction | assumption]|].
  rewrite Ht'. eexists; reflexivity.
Qed.

Lemma list_remove_split (x : Z) (l l' : list Z) :
  list_remove x l = Ret l' ->
  exists l1 l2, l = l1 ++ x :: l2 /\ l' = l1 ++ l2.
Proof.
  revert l'. induction l as [| y t IH]; simpl; intros l'; [discriminate|].
  destruct (Z.eqb_spec y x) as [-> | Hne].
  - intros [= <-]. exists [], t. split; reflexivity.
  - intros H. apply bind_ret in H. destruct H as [t' [Ht' [= <-]]].
    destruct (IH t' Ht') as [l1 [l2 [-> ->]]].
    exists (y :: l1), l2. split; reflexivity.
Qed.

Lemma list_remove_nodup (x : Z) (l l' : list Z) :
  list_remove x l = Ret l' -> NoDup l ->
  NoDup l' /\ ~ In x l' /\ incl l' l /\ length l = S (length l').
Proof.
  intros H Hnd. apply list_remove_split in H. destruct H as [l1 [l2 [-> ->]]].
  pose proof (NoDup_remove _ _ _ Hnd) as [Hnd' Hnin].
  repeat split; try assumption.
  - intros y Hy. apply in_app_iff in Hy. apply in_app_iff.
    destruct Hy; [left | right; right]; assumption.
  - rewrite !length_app. simpl. lia.
Qed.

Lemma sorted_nodup (l : list Z) : StronglySorted Z.lt l -> NoDup l.
Proof.
  induction 1 as [| a l _ IH Ha]; constructor; [|assumption].
  intros Hin. rewrite Forall_forall in Ha. specialize (Ha a Hin). lia.
Qed.

(** A returned pair comes from the pool, is made of two different entries
    and has its product in the admissible range. *)
Lemma pick_pq_ret (fuel : nat) (r : rand) (primes : list Z)
  (n_min n_max p q : Z) :
  NoDup primes ->
  pick_pq fuel r primes n_min n_max = Ret (p, q) ->
  In p primes /\ In q primes /\ p <> q /\ n_min <= p * q <= n_max.
Proof.
  revert r primes. induction fuel as [| fuel IH]; intros r primes Hnd;
    [discriminate|].
  cbn [pick_pq]. destruct primes as [| a l]; [discriminate|].
  destruct (choice_cons r a l) as [x [Hx Hin]]. rewrite Hx. cbn [bind fst snd].
  destruct (list_remove_in x (a :: l) Hin) as [l' Hl']. rewrite Hl'. cbn [bind].
  destruct (list_remove_nodup _ _ _ Hl' Hnd) as [Hnd' [Hnin [Hincl _]]].
  destruct (filter (in_bounds n_min n_max x) l') as [| c cs] eqn:Hf.
  - intros H. destruct (IH _ _ Hnd' H) as [Hp [Hq Hrest]].
    repeat split; try tauto; apply Hincl; assumption.
  - destruct (choice_cons (rand_next r) c cs) as [y [Hy Hyin]]. rewrite Hy.
    cbn [bind fst]. intros [= <- <-].
    rewrite <- Hf in Hyin. apply filter_In in Hyin. destruct Hyin as [Hyl Hb].
    unfold in_bounds in Hb. apply andb_true_iff in Hb.
    rewrite !Z.leb_le in Hb.
    repeat split; try tauto.
    + apply Hincl; assumption.
    + intros ->. contradiction.
Qed.

(** With more fuel than entries in the pool the loop ends, by a pair or by
    [AssertionError]; and it never raises anything else. *)
Lemma pick_pq_cases (fuel : nat) (r : rand) (primes : list Z) (n_min n_max : Z) :
  (exists p q, pick_pq fuel r primes n_min n_max = Ret (p, q)) \/
  pick_pq fuel r primes n_min n_max = Raise AssertionError \/
  (pick_pq fuel r primes n_min n_max = OutOfFuel /\
   (fuel <= length primes)%nat).
Proof.
  revert r primes. induction fuel as [| fuel IH]; intros r primes.
  - right; right. split; [reflexivity | lia].
  - cbn [pick_pq]. destruct primes as [| a l]; [right; left; reflexivity|].
    destruct (choice_cons r a l) as [x [Hx Hin]]. rewrite Hx. cbn [bind fst snd].
    destruct (list_remove_in x (a :: l) Hin) as [l' Hl']. rewrite Hl'. cbn [bind].
    apply list_remove_split in Hl'. destruct Hl' as [l1 [l2 [Hl ->]]].
    assert (Hlen : length (a :: l) = S (length (l1 ++ l2))).
    { rewrite Hl, !length_app. simpl. lia. }
    destruct (filter (in_bounds n_min n_max x) (l1 ++ l2)) as [| c cs].
    + destruct (IH (rand_next r) (l1 ++ l2)) as [H | [H | [H Hle]]].
      * left; assumption.
      * right; left; assumption.
      * right; right. split; [assumption | lia].
    + destruct (choice_cons (rand_next r) c cs) as [y [Hy _]]. rewrite Hy.
      left. exists x, y. reflexivity.
Qed.

(** ** The exponent searches *)

Lemma first_or_fail_ret (f : Z -> bool) (l : list Z) (x : Z) :
  first_or_fail f l = Ret x -> In x l /\ f x = true.
Proof.
  unfold first_or_fail. destruct (find f l) as [y |] eqn:Hf; [|discriminate].
  intros [= <-]. apply find_some in Hf. assumption.
Qed.

Lemma first_or_fail_cases (f : Z -> bool) (l : list Z) :
  (exists x, first_or_fail f l = Ret x) \/
  first_or_fail f l = Raise AssertionError.
Proof.
  unfold first_or_fail. destruct (find f l) as [y |];
    [left; eexists; reflexivity | right; reflexivity].
Qed.

Lemma odd_range (stop x : Z) :
  In x (py_range 3 stop 2) -> 3 <= x < stop /\ Z.odd x = true.
Proof.
  intros H. apply in_py_range in H; [|lia]. destruct H as [Hb Hm].
  split; [assumption|].
  rewrite Zodd_mod. apply Z.eqb_eq.
  apply Z.mod_divide in Hm; [|lia]. destruct Hm as [k Hk].
  replace x with (1 + (k + 1) * 2) by lia.
  rewrite Z.mod_add by lia. reflexivity.
Qed.

Lemma exponents_ret (p q : Z) (pub : PublicKey) (priv : PrivateKey) :
  exponents p q = Ret (pub, priv) ->
  pub_n pub = p * q /\ priv_n priv = p * q /\
  (3 <= pub_e pub < (p - 1) * (q - 1) /\ Z.odd (pub_e pub) = true) /\
  (3 <= priv_d priv < (p - 1) * (q - 1) /\ Z.odd (priv_d priv) = true) /\
  are_relatively_prime (pub_e pub) ((p - 1) * (q - 1)) = true /\
  priv_d priv * pub_e pub mod ((p - 1) * (q - 1)) = 1.
Proof.
  unfold exponents, find_e, find_d. intros H.
  apply bind_ret in H. destruct H as [e [He H]].
  apply bind_ret in H. destruct H as [d [Hd [= <- <-]]].
  apply first_or_fail_ret in He, Hd. destruct He as [He1 He2], Hd as [Hd1 Hd2].
  apply odd_range in He1, Hd1. apply Z.eqb_eq in Hd2. simpl. tauto.
Qed.

Lemma exponents_cases (p q : Z) :
  (exists pub priv, exponents p q = Ret (pub, priv)) \/
  exponents p q = Raise AssertionError.
Proof.
  unfold exponents, find_e, find_d.
  destruct (first_or_fail_cases (fun e => are_relatively_prime e ((p - 1) * (q - 1)))
              (py_range 3 ((p - 1) * (q - 1)) 2)) as [[e ->] | ->];
    [|right; reflexivity].
  cbn [bind].
  destruct (first_or_fail_cases (fun d => d * e mod ((p - 1) * (q - 1)) =? 1)
              (py_range 3 ((p - 1) * (q - 1)) 2)) as [[d ->] | ->];
    [left; do 2 eexists; reflexivity | right; reflexivity].
Qed.

(** ** make_key_pair: the steps after the length check *)

Lemma half_length (L : Z) : 4 <= L -> 2 <= L / 2.
Proof. intros H. apply Z.div_le_lower_bound; lia. Qed.

Lemma make_key_pair_steps (fuel : nat) (r : rand) (L : Z) :
  4 <= L ->
  make_key_pair fuel r L =
    (primes <- get_primes fuel (2 ^ (L / 2 - 1)) (2 ^ (L / 2 + 1)) ;;
     pq <- pick_pq fuel r primes (2 ^ (L - 1)) (2 ^ L - 1) ;;
     exponents (fst pq) (snd pq)).
Proof.
  intros HL. pose proof (half_length L HL). unfold make_key_pair.
  destruct (Z.ltb_spec L 4); [lia|].
  rewrite !py_shl_spec by lia. reflexivity.
Qed.

Lemma make_key_pair_short (fuel : nat) (r : rand) (L : Z) :
  L < 4 -> make_key_pair fuel r L = Raise ValueError.
Proof.
  intros HL. unfold make_key_pair. destruct (Z.ltb_spec L 4); [reflexivity | lia].
Qed.

Lemma make_key_pair_ret (fuel : nat) (r : rand) (L : Z)
  (pub : PublicKey) (priv : PrivateKey) :
  make_key_pair fuel r L = Ret (pub, priv) ->
  4 <= L /\
  exists p q, Z.prime p /\ Z.prime q /\ p <> q /\
    2 ^ (L - 1) <= p * q <= 2 ^ L - 1 /\
    exponents p q = Ret (pub, priv).
Proof.
  intros H. destruct (Z_lt_le_dec L 4) as [Hlt | HL].
  { rewrite make_key_pair_short in H by assumption. discriminate. }
  split; [assumption|]. rewrite make_key_pair_steps in H by assumption.
  apply bind_ret in H. destruct H as [primes [Hprimes H]].
  apply bind_ret in H. destruct H as [[p q] [Hpq H]]. cbn [fst snd] in H.
  apply get_primes_sound in Hprimes. destruct Hprimes as [Hs Hall].
  apply pick_pq_ret in Hpq; [|apply sorted_nodup; assumption].
  destruct Hpq as [Hp [Hq [Hne Hb]]]. rewrite Forall_forall in Hall.
  exists p, q. repeat split; try tauto; apply Hall; assumption.
Qed.

Lemma get_primes_length (fuel : nat) (start stop : Z) (l : list Z) :
  get_primes fuel start stop = Ret l -> (length l <= Z.to_nat stop + 1)%nat.
Proof.
  intros H. destruct (Z_lt_le_dec start stop) as [Hlt | Hge].
  - apply get_primes_filter in H; [|assumption]. subst l.
    pose proof (filter_length_le (Z.leb start) (sieve stop)).
    pose proof (sieve_length stop). lia.
  - rewrite get_primes_empty in H by assumption. injection H as <-. simpl. lia.
Qed.

(** The outcomes of [make_key_pair]: with any fuel, the only exceptions are
    the two the function raises itself; with enough fuel it ends. *)
Lemma make_key_pair_cases (fuel : nat) (r : rand) (L : Z) :
  (L < 4 /\ make_key_pair fuel r L = Raise ValueError) \/
  (4 <= L /\ make_key_pair fuel r L = Raise AssertionError) \/
  (4 <= L /\ exists pub priv, make_key_pair fuel r L = Ret (pub, priv)) \/
  (4 <= L /\ make_key_pair fuel r L = OutOfFuel /\
   (fuel <= Z.to_nat (2 ^ (L / 2 + 1)) + 1)%nat).
Proof.
  destruct (Z_lt_le_dec L 4) as [Hlt | HL].
  { left. split; [assumption | apply make_key_pair_short; assumption]. }
  right. rewrite make_key_pair_steps by assumption.
  set (start := 2 ^ (L / 2 - 1)). set (stop := 2 ^ (L / 2 + 1)).
  destruct (get_primes fuel start stop) as [primes | e |] eqn:Hprimes.
  - pose proof (get_primes_length _ _ _ _ Hprimes) as Hlen. cbn [bind].
    destruct (pick_pq_cases fuel r primes (2 ^ (L - 1)) (2 ^ L - 1))
      as [[p [q ->]] | [-> | [-> Hle]]]; cbn [bind fst snd].
    + destruct (exponents_cases p q) as [[pub [priv ->]] | ->].
      * right; left. split; [assumption | do 2 eexists; reflexivity].
      * left. split; [assumption | reflexivity].
    + left. split; [assumption | reflexivity].
    + right; right. repeat split; [assumption | lia].
  - exfalso. exact (get_primes_no_raise _ _ _ _ Hprimes).
  - right; right. repeat split; [assumption|].
    destruct (Nat.le_gt_cases fuel (Z.to_nat stop + 1)) as [|Hgt]; [assumption|].
    destruct (get_primes_terminates fuel start stop Hgt) as [l Hl]. congruence.
Qed.

(** Powers modulo [n] with an odd positive exponent. *)
Lemma py_pow_boundary (n k x : Z) :
  0 < n -> 0 < k -> Z.odd k = true ->
  exists y, py_pow x k n = Ret y /\ 0 <= y <= n - 1 /\
    (x mod n = 0 -> y = 0) /\
    (x mod n = (n - 1) mod n -> y = n - 1) /\
    py_pow (x mod n) k n = Ret y.
Proof.
  intros Hn Hk Hodd. exists (x ^ k mod n).
  rewrite !py_pow_spec by lia.
  pose proof (Z.mod_pos_bound (x ^ k) n Hn) as Hb.
  split; [reflexivity|]. split; [lia|]. split; [|split].
  - intros H0. rewrite <- Z.mod_pow_l, H0, Z.pow_0_l by lia.
    apply Z.mod_0_l. lia.
  - intros Hm. rewrite <- Z.mod_pow_l, Hm, Z.mod_pow_l.
    transitivity ((- (1)) ^ k mod n).
    + rewrite <- (Z.mod_pow_l (n - 1)), <- (Z.mod_pow_l (- (1))).
      do 2 f_equal. replace (n - 1) with (- (1) + 1 * n) by ring.
      apply Z.mod_add. lia.
    + apply Z.odd_spec in Hodd. rewrite Z.pow_opp_odd by assumption.
      rewrite Z.pow_1_l by lia.
      replace (- (1)) with (n - 1 + (- 1) * n) by ring.
      rewrite Z.mod_add by lia. apply Z.mod_small. lia.
  - rewrite Z.mod_pow_l. reflexivity.
Qed.

(** Every pair that [make_key_pair] returns is valid in the sense above. *)
Lemma make_key_pair_valid (fuel : nat) (r : rand) (L : Z)
  (pub : PublicKey) (priv : PrivateKey) :
  make_key_pair fuel r L = Ret (pub, priv) -> valid_keys pub priv.
Proof.
  intros H. apply make_key_pair_ret in H.
  destruct H as [_ [p [q [Hp [Hq [_ [_ Hexp]]]]]]].
  apply exponents_ret in Hexp.
  destruct Hexp as [Hn [Hn' [[He Heo] [[Hd Hdo] _]]]].
  pose proof (Z.prime_ge_2 _ Hp). pose proof (Z.prime_ge_2 _ Hq).
  unfold valid_keys. rewrite Hn, Hn'. repeat split; try assumption; nia.
Qed.

(** * The properties of the specification *)

(** C1 (round trip).  For every length [L >= 4], every random source and
    amount of fuel for which [make_key_pair] returns [(pub, priv)], and
    every [x] with [0 <= x < n]: decrypting the encryption of [x] gives
    [x] back. *)
Theorem round_trip (fuel : nat) (r : rand) (L : Z)
  (pub : PublicKey) (priv : PrivateKey) (x : Z) :
  4 <= L ->
  make_key_pair fuel r L = Ret (pub, priv) ->
  0 <= x < pub_n pub ->
  (y <- encrypt pub x ;; decrypt priv y) = Ret x.
Proof.
  intros _ H Hx. apply make_key_pair_ret in H.
  destruct H as [_ [p [q [Hp [Hq [Hne [_ Hexp]]]]]]].
  apply exponents_ret in Hexp.
  destruct Hexp as [Hn [Hn' [[He _] [[Hd _] [_ Hde]]]]].
  pose proof (Z.prime_ge_2 _ Hp). pose proof (Z.prime_ge_2 _ Hq).
  unfold encrypt, decrypt. rewrite Hn, Hn' in *.
  rewrite py_pow_spec by nia. cbn [bind]. rewrite py_pow_spec by nia.
  f_equal. apply rsa_round_trip; try assumption; lia.
Qed.

Lemma round_trip_witness :
  make_key_pair 20 (fun _ => 0%nat) 4 = Ret (mkPublicKey 10 3, mkPrivateKey 10 3) /\
  (y <- encrypt (mkPublicKey 10 3) 7 ;; decrypt (mkPrivateKey 10 3) y) = Ret 7.
Proof.
  split; [vm_compute; reflexivity|].
  apply (round_trip 20 (fun _ => 0%nat) 4 (mkPublicKey 10 3) (mkPrivateKey 10 3) 7).
  - lia.
  - vm_compute; reflexivity.
  - simpl; lia.
Defined.

(** C2 (bit-length invariant).  For every length [L >= 4] and every run of
    [make_key_pair] that returns a pair, the modulus lies in
    [[2^(L-1), 2^L - 1]], its bit length is exactly [L], and both keys carry
    the same modulus. *)
Theorem modulus_bit_length (fuel : nat) (r : rand) (L : Z)
  (pub : PublicKey) (priv : PrivateKey) :
  4 <= L ->
  make_key_pair fuel r L = Ret (pub, priv) ->
  2 ^ (L - 1) <= pub_n pub <= 2 ^ L - 1 /\
  bit_length (pub_n pub) = L /\
  pub_n pub = priv_n priv.
Proof.
  intros HL H. apply make_key_pair_ret in H.
  destruct H as [_ [p [q [_ [_ [_ [Hb Hexp]]]]]]].
  apply exponents_ret in Hexp. destruct Hexp as [Hn [Hn' _]].
  rewrite Hn, Hn'. split; [assumption|]. split; [|reflexivity].
  assert (Hpos : 0 < 2 ^ (L - 1)) by (apply Z.pow_pos_nonneg; lia).
  unfold bit_length. destruct (Z.eqb_spec (p * q) 0) as [E | _]; [lia|].
  rewrite Z.abs_eq by lia.
  rewrite (Z.log2_unique (p * q) (L - 1)); [lia | lia |].
  replace (Z.succ (L - 1)) with L by lia. lia.
Qed.

Lemma modulus_bit_length_witness :
  make_key_pair 20 (fun i => i) 6 = Ret (mkPublicKey 55 3, mkPrivateKey 55 27) /\
  (2 ^ (6 - 1) <= 55 <= 2 ^ 6 - 1 /\ bit_length 55 = 6 /\ 55 = 55).
Proof.
  split; [vm_compute; reflexivity|].
  apply (modulus_bit_length 20 (fun i => i) 6 (mkPublicKey 55 3) (mkPrivateKey 55 27)).
  - lia.
  - vm_compute; reflexivity.
Defined.

(** C3 (boundary fixed points and result range).  For a valid key pair with
    modulus [n], [encrypt] and [decrypt] return a value of [[0, n-1]]; an
    input congruent to [0] modulo [n] maps to [0] and one congruent to [n-1]
    maps to [n-1], in particular [n] and [n-1] themselves; and an input gives
    the same result as its residue modulo [n]. *)
Theorem boundary_fixed_points (pub : PublicKey) (priv : PrivateKey) (x : Z) :
  valid_keys pub priv ->
  (exists y z,
     encrypt pub x = Ret y /\ decrypt priv x = Ret z /\
     0 <= y <= pub_n pub - 1 /\ 0 <= z <= pub_n pub - 1 /\
     (x mod pub_n pub = 0 -> y = 0 /\ z = 0) /\
     (x mod pub_n pub = (pub_n pub - 1) mod pub_n pub ->
      y = pub_n pub - 1 /\ z = pub_n pub - 1) /\
     encrypt pub (x mod pub_n pub) = Ret y /\
     decrypt priv (x mod pub_n pub) = Ret z) /\
  encrypt pub (pub_n pub - 1) = Ret (pub_n pub - 1) /\
  encrypt pub (pub_n pub) = Ret 0 /\
  decrypt priv (pub_n pub - 1) = Ret (pub_n pub - 1) /\
  decrypt priv (pub_n pub) = Ret 0.
Proof.
  intros [Hn [Hpos [[He Heo] [Hd Hdo]]]].
  unfold encrypt, decrypt. rewrite Hn. set (n := pub_n pub) in *.
  assert (Hfix : forall k, 0 < k -> Z.odd k = true ->
            py_pow (n - 1) k n = Ret (n - 1) /\ py_pow n k n = Ret 0).
  { intros k Hk Hko. split.
    - destruct (py_pow_boundary n k (n - 1) Hpos Hk Hko) as [y [-> [_ [_ [Hy _]]]]].
      f_equal. apply Hy. reflexivity.
    - destruct (py_pow_boundary n k n Hpos Hk Hko) as [y [-> [_ [Hy _]]]].
      f_equal. apply Hy. apply Z.mod_same. lia. }
  destruct (Hfix _ He Heo) as [He1 He2]. destruct (Hfix _ Hd Hdo) as [Hd1 Hd2].
  split; [|tauto].
  destruct (py_pow_boundary n (pub_e pub) x Hpos He Heo)
    as [y [Hy [Hyb [Hy0 [Hy1 Hym]]]]].
  destruct (py_pow_boundary n (priv_d priv) x Hpos Hd Hdo)
    as [z [Hz [Hzb [Hz0 [Hz1 Hzm]]]]].
  exists y, z. repeat split; try tauto; try lia; auto.
Qed.

Lemma boundary_fixed_points_witness :
  valid_keys (mkPublicKey 55 3) (mkPrivateKey 55 27) /\
  encrypt (mkPublicKey 55 3) 54 = Ret 54 /\
  decrypt (mkPrivateKey 55 27) 55 = Ret 0.
Proof.
  assert (Hv : valid_keys (mkPublicKey 55 3) (mkPrivateKey 55 27)).
  { unfold valid_keys; simpl; repeat split; lia. }
  split; [exact Hv|].
  destruct (boundary_fixed_points (mkPublicKey 55 3) (mkPrivateKey 55 27) 0 Hv)
    as [_ [H1 [_ [_ H4]]]].
  split; [exact H1 | exact H4].
Defined.

(** C4 (known vectors).  With [n = 2534665157], [e = 7] and
    [d = 1810402843], the three plaintexts of the module's self-test
    encrypt to the recorded ciphertexts, and these decrypt back. *)
Theorem known_vectors :
  let public := mkPublicKey 2534665157 7 in
  let private := mkPrivateKey 2534665157 1810402843 in
  encrypt public 123 = Ret 2463995467 /\
  decrypt private 2463995467 = Ret 123 /\
  encrypt public 456 = Ret 2022084991 /\
  decrypt private 2022084991 = Ret 456 /\
  encrypt public 123456 = Ret 1299565302 /\
  decrypt private 1299565302 = Ret 123456.
Proof.
  vm_compute. repeat split.
Qed.

(** C5 (invalid parameter).  [make_key_pair] raises [ValueError] exactly
    when [length < 4], whatever the fuel and the random source (the check
    comes first); for [length >= 4] the only exception it can raise is
    [AssertionError]. *)
Theorem invalid_parameter (fuel : nat) (r : rand) (L : Z) :
  (make_key_pair fuel r L = Raise ValueError <-> L < 4) /\
  (forall e, 4 <= L -> make_key_pair fuel r L = Raise e -> e = AssertionError).
Proof.
  destruct (make_key_pair_cases fuel r L)
    as [[HL H] | [[HL H] | [[HL [pub [priv H]]] | [HL [H _]]]]]; rewrite H.
  - split; [tauto | intros; lia].
  - split; [split; [discriminate | lia] | intros e _ [= <-]; reflexivity].
  - split; [split; [discriminate | lia] | discriminate].
  - split; [split; [discriminate | lia] | discriminate].
Qed.

(** C6 (prime finder), at an input where the code departs from the
    contract: for [start = 0] and [stop = 1] the seeded [2] is returned,
    although it lies above [stop]. *)
Theorem get_primes_seed_above_stop :
  get_primes 1 0 1 = Ret [2] /\ ~ (0 <= 2 <= 1).
Proof.
  split; [reflexivity | lia].
Qed.

(** C7 (coprimality checker).  [are_relatively_prime a b] is false exactly
    when some [n] with [2 <= n <= min a b] divides both [a] and [b], and true
    otherwise; for positive [a] and [b] it is true exactly when their
    greatest common divisor is [1]. *)
Theorem are_relatively_prime_contract (a b : Z) :
  (are_relatively_prime a b = false <->
   exists n, 2 <= n <= Z.min a b /\ a mod n = 0 /\ b mod n = 0) /\
  (are_relatively_prime a b = true <->
   ~ exists n, 2 <= n <= Z.min a b /\ a mod n = 0 /\ b mod n = 0) /\
  (0 < a -> 0 < b -> (are_relatively_prime a b = true <-> Z.gcd a b = 1)).
Proof.
  split; [apply are_relatively_prime_false|]. split.
  - rewrite <- are_relatively_prime_false. symmetry. apply not_false_iff_true.
  - apply are_relatively_prime_gcd.
Qed.

(** C8 (coprimality boundary), as the code has it: whenever
    [min a b = 1] the scan is empty and the result is true, as it should be
    for a pair whose greatest common divisor is [1]. *)
Theorem are_relatively_prime_boundary (a b : Z) :
  Z.min a b = 1 -> are_relatively_prime a b = true /\ Z.gcd a b = 1.
Proof.
  intros Hmin. split.
  - apply are_relatively_prime_small. lia.
  - destruct (Z.min_spec a b) as [[_ E] | [_ E]]; rewrite E in Hmin; subst.
    + apply Z.gcd_1_l.
    + apply Z.gcd_1_r.
Qed.

Lemma are_relatively_prime_boundary_witness :
  Z.min 1 7 = 1 /\ are_relatively_prime 1 7 = true /\ Z.gcd 1 7 = 1.
Proof.
  split; [reflexivity|].
  apply (are_relatively_prime_boundary 1 7). reflexivity.
Defined.

(** The boundary claim as the specification words it (false for every pair
    with [min a b <= 1]) does not hold: [are_relatively_prime 1 1] is true. *)
Lemma are_relatively_prime_boundary_not_false :
  ~ (forall a b, Z.min a b <= 1 -> are_relatively_prime a b = false).
Proof.
  intros H. specialize (H 1 1 ltac:(simpl; lia)). vm_compute in H. discriminate.
Qed.

(** C9 (termination).  Given fuel beyond the size of the prime pool,
    [get_primes] returns a list and [make_key_pair] ends by a pair or by one
    of its two exceptions; the scan of [are_relatively_prime] visits a range
    whose length the arguments fix. *)
Theorem loops_terminate (start stop a b L : Z) (r : rand) (fuel : nat) :
  (enough_fuel stop <= fuel)%nat ->
  (enough_fuel (2 ^ (L / 2 + 1)) <= fuel)%nat ->
  (exists l, get_primes fuel start stop = Ret l) /\
  length (py_range 2 (Z.min a b + 1) 1) = Z.to_nat (Z.min a b - 1) /\
  (make_key_pair fuel r L = Raise ValueError \/
   make_key_pair fuel r L = Raise AssertionError \/
   exists pub priv, make_key_pair fuel r L = Ret (pub, priv)).
Proof.
  unfold enough_fuel. intros Hf1 Hf2. split; [|split].
  - apply get_primes_terminates. lia.
  - unfold py_range, range_len. rewrite length_map, length_seq.
    rewrite Z.div_1_r. f_equal. ring.
  - destruct (make_key_pair_cases fuel r L)
      as [[_ H] | [[_ H] | [[_ H] | [_ [_ Hle]]]]]; [tauto | tauto | tauto | lia].
Qed.

Lemma loops_terminate_witness :
  (exists l, get_primes 20 2 8 = Ret l) /\
  length (py_range 2 (Z.min 9 6 + 1) 1) = Z.to_nat (Z.min 9 6 - 1) /\
  (make_key_pair 20 (fun i => i) 4 = Raise ValueError \/
   make_key_pair 20 (fun i => i) 4 = Raise AssertionError \/
   exists pub priv, make_key_pair 20 (fun i => i) 4 = Ret (pub, priv)).
Proof.
  apply (loops_terminate 2 8 9 6 4 (fun i => i) 20).
  - vm_compute; lia.
  - vm_compute; lia.
Defined.

(** C10 (distinct primes).  For every length [L >= 4] and every run of
    [make_key_pair] that returns a pair, the modulus is the product of two
    different primes, and so is not the square of a prime. *)
Theorem distinct_primes (fuel : nat) (r : rand) (L : Z)
  (pub : PublicKey) (priv : PrivateKey) :
  4 <= L ->
  make_key_pair fuel r L = Ret (pub, priv) ->
  (exists p q, Z.prime p /\ Z.prime q /\ p <> q /\ pub_n pub = p * q) /\
  (forall s, Z.prime s -> pub_n pub <> s * s).
Proof.
  intros _ H. apply make_key_pair_ret in H.
  destruct H as [_ [p [q [Hp [Hq [Hne [_ Hexp]]]]]]].
  apply exponents_ret in Hexp. destruct Hexp as [Hn _]. rewrite Hn. split.
  - exists p, q. tauto.
  - intros s Hs Hsq. apply Hne.
    assert (Hps : (p | s * s)) by (exists q; lia).
    assert (Hqs : (q | s * s)) by (exists p; lia).
    apply Z.divide_prime_mul in Hps, Hqs; try assumption.
    assert (p = s) by (apply Z.divide_prime_prime; tauto).
    assert (q = s) by (apply Z.divide_prime_prime; tauto).
    congruence.
Qed.

Lemma distinct_primes_witness :
  make_key_pair 20 (fun i => i) 6 = Ret (mkPublicKey 55 3, mkPrivateKey 55 27) /\
  (exists p q, Z.prime p /\ Z.prime q /\ p <> q /\ 55 = p * q) /\
  (forall s, Z.prime s -> 55 <> s * s).
Proof.
  split; [vm_compute; reflexivity|].
  apply (distinct_primes 20 (fun i => i) 6 (mkPublicKey 55 3) (mkPrivateKey 55 27)).
  - lia.
  - vm_compute; reflexivity.
Defined.

(** * Further properties of the code *)

(** ** Auxiliary facts *)

Lemma bit_length_range (n k : Z) :
  0 < k -> 2 ^ (k - 1) <= n < 2 ^ k -> bit_length n = k.
Proof.
  intros Hk Hn.
  assert (Hpos : 0 < 2 ^ (k - 1)) by (apply Z.pow_pos_nonneg; lia).
  unfold bit_length. destruct (Z.eqb_spec n 0) as [E | _]; [lia|].
  rewrite Z.abs_eq by lia.
  rewrite (Z.log2_unique n (k - 1)); [lia | lia |].
  replace (Z.succ (k - 1)) with k by lia. assumption.
Qed.

(** The pool a returned pair was drawn from. *)
Lemma make_key_pair_pool (fuel : nat) (r : rand) (L : Z)
  (pub : PublicKey) (priv : PrivateKey) :
  make_key_pair fuel r L = Ret (pub, priv) ->
  4 <= L /\
  exists primes p q,
    get_primes fuel (2 ^ (L / 2 - 1)) (2 ^ (L / 2 + 1)) = Ret primes /\
    pick_pq fuel r primes (2 ^ (L - 1)) (2 ^ L - 1) = Ret (p, q) /\
    exponents p q = Ret (pub, priv).
Proof.
  intros H. destruct (Z_lt_le_dec L 4) as [Hlt | HL].
  { rewrite make_key_pair_short in H by assumption. discriminate. }
  split; [assumption|]. rewrite make_key_pair_steps in H by assumption.
  apply bind_ret in H. destruct H as [primes [Hprimes H]].
  apply bind_ret in H. destruct H as [[p q] [Hpq H]]. cbn [fst snd] in H.
  exists primes, p, q. tauto.
Qed.

Lemma pool_bounds (L : Z) :
  4 <= L ->
  2 ^ (L / 2 - 1) < 2 ^ (L / 2 + 1) /\ 2 <= 2 ^ (L / 2 + 1) /\
  ~ Z.prime (2 ^ (L / 2 + 1)).
Proof.
  intros HL. pose proof (half_length L HL) as Hk.
  assert (H1 : 2 ^ 1 <= 2 ^ (L / 2 - 1)) by (apply Z.pow_le_mono_r; lia).
  assert (H2 : 2 ^ (L / 2 - 1) < 2 ^ (L / 2 + 1))
    by (apply Z.pow_lt_mono_r; lia).
  change (2 ^ 1) with 2 in H1.
  split; [assumption|]. split; [lia|].
  replace (L / 2 + 1) with (1 + (L / 2 - 1) + 1) by ring.
  rewrite Z.pow_add_r, Z.pow_add_r by lia.
  change (2 ^ 1) with 2. rewrite <- Z.mul_assoc.
  apply even_not_prime. lia.
Qed.

(** Encryption followed by decryption, as arithmetic, for any integer. *)
Lemma rsa_mod (p q e d x : Z) :
  Z.prime p -> Z.prime q -> p <> q -> 0 <= e -> 0 <= d ->
  d * e mod ((p - 1) * (q - 1)) = 1 ->
  (x ^ e mod (p * q)) ^ d mod (p * q) = x mod (p * q).
Proof.
  intros Hp Hq Hne He Hd Hde.
  pose proof (Z.prime_ge_2 _ Hp) as Hp2. pose proof (Z.prime_ge_2 _ Hq) as Hq2.
  set (phi := (p - 1) * (q - 1)) in *.
  assert (Hphi : 1 <= phi) by (unfold phi; nia).
  assert (Hphi1 : phi <> 1) by (intros E; rewrite E, Z.mod_1_r in Hde; lia).
  pose proof (Z.div_mod (d * e) phi ltac:(lia)) as Hdm. rewrite Hde in Hdm.
  assert (Hk : 0 <= d * e / phi) by (apply Z.div_pos; nia).
  rewrite Z.mod_pow_l, <- Z.pow_mul_r by assumption.
  replace (e * d) with (d * e / phi * phi + 1) by lia.
  unfold phi. apply pow_totient; assumption.
Qed.

(** What a returned pair is made of, in one statement. *)
Lemma make_key_pair_facts (fuel : nat) (r : rand) (L : Z)
  (pub : PublicKey) (priv : PrivateKey) :
  make_key_pair fuel r L = Ret (pub, priv) ->
  exists p q,
    (Z.prime p /\ Z.prime q /\ p <> q) /\
    (pub_n pub = p * q /\ priv_n priv = p * q /\ 0 < p * q) /\
    (3 <= pub_e pub < (p - 1) * (q - 1) /\ Z.odd (pub_e pub) = true) /\
    (3 <= priv_d priv < (p - 1) * (q - 1) /\ Z.odd (priv_d priv) = true) /\
    are_relatively_prime (pub_e pub) ((p - 1) * (q - 1)) = true /\
    priv_d priv * pub_e pub mod ((p - 1) * (q - 1)) = 1.
Proof.
  intros H. apply make_key_pair_ret in H.
  destruct H as [_ [p [q [Hp [Hq [Hne [_ Hexp]]]]]]].
  apply exponents_ret in Hexp.
  pose proof (Z.prime_ge_2 _ Hp). pose proof (Z.prime_ge_2 _ Hq).
  assert (0 < p * q) by nia.
  exists p, q. tauto.
Qed.

(** ** get_primes *)

(** X1.  For [start < stop] and [2 <= stop], and fuel beyond the size of the
    pool, [get_primes] returns the primes of [[start, stop]] (both ends
    included), each once, in strictly ascending order. *)
Theorem get_primes_exact (fuel : nat) (start stop : Z) :
  start < stop -> 2 <= stop -> (enough_fuel stop <= fuel)%nat ->
  exists l, get_primes fuel start stop = Ret l /\
    StronglySorted Z.lt l /\
    forall x, In x l <-> Z.prime x /\ start <= x <= stop.
Proof.
  intros Hlt Hstop Hfuel.
  destruct (get_primes_terminates fuel start stop) as [l Hl];
    [unfold enough_fuel in Hfuel; lia|].
  exists l. split; [assumption|]. eapply get_primes_spec; eassumption.
Qed.

Lemma get_primes_exact_witness :
  exists l, get_primes 9 3 7 = Ret l /\
    StronglySorted Z.lt l /\
    forall x, In x l <-> Z.prime x /\ 3 <= x <= 7.
Proof.
  apply (get_primes_exact 9 3 7); [lia | lia | vm_compute; lia].
Defined.

(** X2.  For [start < stop < 2] the candidate range is empty and the seed
    survives the trim: the result is [[2]]. *)
Theorem get_primes_seed_only (fuel : nat) (start stop : Z) :
  start < stop -> stop < 2 -> (0 < fuel)%nat ->
  get_primes fuel start stop = Ret [2].
Proof.
  intros Hlt Hstop Hfuel. destruct fuel as [| fuel]; [lia|].
  apply get_primes_small_stop; assumption.
Qed.

Lemma get_primes_seed_only_witness : get_primes 1 (-5) (-1) = Ret [2].
Proof.
  apply (get_primes_seed_only 1 (-5) (-1)); lia.
Defined.

(** ** are_relatively_prime *)

(** X3.  The result does not depend on the order of the arguments. *)
Theorem are_relatively_prime_sym (a b : Z) :
  are_relatively_prime a b = are_relatively_prime b a.
Proof.
  assert (Himp : forall u v, are_relatively_prime u v = false ->
                             are_relatively_prime v u = false).
  { intros u v H. apply are_relatively_prime_false in H.
    apply are_relatively_prime_false. destruct H as [n [Hn [Hu Hv]]].
    exists n. rewrite Z.min_comm. tauto. }
  destruct (are_relatively_prime a b) eqn:Eab;
    destruct (are_relatively_prime b a) eqn:Eba; try reflexivity.
  - apply Himp in Eba. congruence.
  - apply Himp in Eab. congruence.
Qed.

(** ** The returned keys *)

(** X4.  The exponents of a returned pair: with [phi = (p-1)(q-1)] for the
    two primes of the modulus, [e] and [d] are odd and lie in [[3, phi)],
    [e] has no common divisor with [phi], and [d * e] leaves remainder [1]
    modulo [phi]. *)
Theorem key_invariants (fuel : nat) (r : rand) (L : Z)
  (pub : PublicKey) (priv : PrivateKey) :
  make_key_pair fuel r L = Ret (pub, priv) ->
  exists p q,
    Z.prime p /\ Z.prime q /\ pub_n pub = p * q /\
    (3 <= pub_e pub < (p - 1) * (q - 1) /\ Z.odd (pub_e pub) = true /\
     Z.gcd (pub_e pub) ((p - 1) * (q - 1)) = 1) /\
    (3 <= priv_d priv < (p - 1) * (q - 1) /\ Z.odd (priv_d priv) = true) /\
    priv_d priv * pub_e pub mod ((p - 1) * (q - 1)) = 1.
Proof.
  intros H. apply make_key_pair_facts in H.
  destruct H as [p [q [[Hp [Hq _]] [[Hn _] [[He Heo] [Hd [Hrp Hde]]]]]]].
  apply are_relatively_prime_gcd in Hrp; [|lia|lia].
  exists p, q. tauto.
Qed.

Lemma key_invariants_witness :
  exists p q,
    Z.prime p /\ Z.prime q /\ 55 = p * q /\
    (3 <= 3 < (p - 1) * (q - 1) /\ Z.odd 3 = true /\
     Z.gcd 3 ((p - 1) * (q - 1)) = 1) /\
    (3 <= 27 < (p - 1) * (q - 1) /\ Z.odd 27 = true) /\
    27 * 3 mod ((p - 1) * (q - 1)) = 1.
Proof.
  apply (key_invariants 20 (fun i => i) 6 (mkPublicKey 55 3) (mkPrivateKey 55 27)).
  vm_compute; reflexivity.
Defined.

Lemma bit_length_two (p k : Z) :
  2 <= k -> 2 ^ (k - 1) <= p < 2 ^ (k + 1) ->
  bit_length p = k \/ bit_length p = k + 1.
Proof.
  intros Hk Hp. destruct (Z_lt_le_dec p (2 ^ k)) as [Hlt | Hge].
  - left. apply bit_length_range; lia.
  - right. apply bit_length_range; [lia|].
    replace (k + 1 - 1) with k by ring. lia.
Qed.

(** X5.  The two primes of a returned modulus both lie in
    [[2^(L/2 - 1), 2^(L/2 + 1))]: each has [L/2] or [L/2 + 1] bits. *)
Theorem prime_factors_range (fuel : nat) (r : rand) (L : Z)
  (pub : PublicKey) (priv : PrivateKey) :
  make_key_pair fuel r L = Ret (pub, priv) ->
  exists p q,
    pub_n pub = p * q /\
    2 ^ (L / 2 - 1) <= p < 2 ^ (L / 2 + 1) /\
    2 ^ (L / 2 - 1) <= q < 2 ^ (L / 2 + 1) /\
    (bit_length p = L / 2 \/ bit_length p = L / 2 + 1) /\
    (bit_length q = L / 2 \/ bit_length q = L / 2 + 1).
Proof.
  intros H. apply make_key_pair_pool in H.
  destruct H as [HL [primes [p [q [Hprimes [Hpq Hexp]]]]]].
  destruct (pool_bounds L HL) as [Hlt [Hstop Hnp]].
  pose proof (half_length L HL) as Hk.
  destruct (get_primes_spec _ _ _ _ Hlt Hstop Hprimes) as [Hs Hin].
  apply pick_pq_ret in Hpq; [|apply sorted_nodup; assumption].
  destruct Hpq as [Hp [Hq _]]. apply Hin in Hp, Hq.
  apply exponents_ret in Hexp. destruct Hexp as [Hn _].
  assert (Hpb : 2 ^ (L / 2 - 1) <= p < 2 ^ (L / 2 + 1)).
  { destruct Hp as [Hp Hb]. split; [lia|].
    destruct (Z.eq_dec p (2 ^ (L / 2 + 1))) as [E | Hne]; [|lia].
    rewrite E in Hp. contradiction. }
  assert (Hqb : 2 ^ (L / 2 - 1) <= q < 2 ^ (L / 2 + 1)).
  { destruct Hq as [Hq Hb]. split; [lia|].
    destruct (Z.eq_dec q (2 ^ (L / 2 + 1))) as [E | Hne]; [|lia].
    rewrite E in Hq. contradiction. }
  exists p, q. repeat split; try lia; try assumption;
    apply bit_length_two; assumption.
Qed.

Lemma prime_factors_range_witness :
  exists p q,
    55 = p * q /\
    2 ^ (6 / 2 - 1) <= p < 2 ^ (6 / 2 + 1) /\
    2 ^ (6 / 2 - 1) <= q < 2 ^ (6 / 2 + 1) /\
    (bit_length p = 6 / 2 \/ bit_length p = 6 / 2 + 1) /\
    (bit_length q = 6 / 2 \/ bit_length q = 6 / 2 + 1).
Proof.
  apply (prime_factors_range 20 (fun i => i) 6
           (mkPublicKey 55 3) (mkPrivateKey 55 27)).
  vm_compute; reflexivity.
Defined.

(** ** encrypt and decrypt together *)

(** X6.  For a returned pair and any integer [x], also one outside
    [[0, n)], decrypting the encryption of [x] gives the residue of [x]
    modulo [n]. *)
Theorem decrypt_encrypt_mod (fuel : nat) (r : rand) (L : Z)
  (pub : PublicKey) (priv : PrivateKey) (x : Z) :
  make_key_pair fuel r L = Ret (pub, priv) ->
  (y <- encrypt pub x ;; decrypt priv y) = Ret (x mod pub_n pub).
Proof.
  intros H. apply make_key_pair_facts in H.
  destruct H as [p [q [[Hp [Hq Hne]] [[Hn [Hn' Hpos]] [[He _] [[Hd _] [_ Hde]]]]]]].
  unfold encrypt, decrypt. rewrite Hn, Hn'.
  rewrite py_pow_spec by lia. cbn [bind]. rewrite py_pow_spec by lia.
  f_equal. apply rsa_mod; try assumption; lia.
Qed.

Lemma decrypt_encrypt_mod_witness :
  (y <- encrypt (mkPublicKey 55 3) (-4) ;; decrypt (mkPrivateKey 55 27) y)
  = Ret ((-4) mod 55).
Proof.
  apply (decrypt_encrypt_mod 20 (fun i => i) 6
           (mkPublicKey 55 3) (mkPrivateKey 55 27) (-4)).
  vm_compute; reflexivity.
Defined.

(** X7.  The two methods also undo each other in the other order:
    encrypting the decryption of [x] gives the residue of [x] modulo [n]. *)
Theorem encrypt_decrypt_mod (fuel : nat) (r : rand) (L : Z)
  (pub : PublicKey) (priv : PrivateKey) (x : Z) :
  make_key_pair fuel r L = Ret (pub, priv) ->
  (y <- decrypt priv x ;; encrypt pub y) = Ret (x mod pub_n pub).
Proof.
  intros H. apply make_key_pair_facts in H.
  destruct H as [p [q [[Hp [Hq Hne]] [[Hn [Hn' Hpos]] [[He _] [[Hd _] [_ Hde]]]]]]].
  unfold encrypt, decrypt. rewrite Hn, Hn'.
  rewrite py_pow_spec by lia. cbn [bind]. rewrite py_pow_spec by lia.
  f_equal. rewrite Z.mul_comm in Hde. apply rsa_mod; try assumption; lia.
Qed.

Lemma encrypt_decrypt_mod_witness :
  (y <- decrypt (mkPrivateKey 55 27) 12 ;; encrypt (mkPublicKey 55 3) y)
  = Ret (12 mod 55).
Proof.
  apply (encrypt_decrypt_mod 20 (fun i => i) 6
           (mkPublicKey 55 3) (mkPrivateKey 55 27) 12).
  vm_compute; reflexivity.
Defined.

(** X8.  With a returned public key, two different plaintexts of [[0, n)]
    never encrypt to the same value. *)
Theorem encrypt_injective (fuel : nat) (r : rand) (L : Z)
  (pub : PublicKey) (priv : PrivateKey) (x1 x2 : Z) :
  make_key_pair fuel r L = Ret (pub, priv) ->
  0 <= x1 < pub_n pub -> 0 <= x2 < pub_n pub ->
  encrypt pub x1 = encrypt pub x2 -> x1 = x2.
Proof.
  intros H H1 H2. apply make_key_pair_facts in H.
  destruct H as [p [q [[Hp [Hq Hne]] [[Hn [Hn' Hpos]] [[He _] [[Hd _] [_ Hde]]]]]]].
  unfold encrypt. rewrite Hn in *. rewrite !py_pow_spec by lia.
  intros [= E].
  assert (He0 : 0 <= pub_e pub) by lia. assert (Hd0 : 0 <= priv_d priv) by lia.
  pose proof (rsa_mod p q _ _ x1 Hp Hq Hne He0 Hd0 Hde) as E1.
  pose proof (rsa_mod p q _ _ x2 Hp Hq Hne He0 Hd0 Hde) as E2.
  rewrite E, E2 in E1. rewrite !Z.mod_small in E1 by assumption.
  symmetry; assumption.
Qed.

Lemma encrypt_injective_witness :
  encrypt (mkPublicKey 55 3) (3 + 4) = encrypt (mkPublicKey 55 3) 7 /\
  3 + 4 = 7.
Proof.
  split; [reflexivity|].
  apply (encrypt_injective 20 (fun i => i) 6
           (mkPublicKey 55 3) (mkPrivateKey 55 27) (3 + 4) 7).
  - vm_compute; reflexivity.
  - simpl; lia.
  - simpl; lia.
  - reflexivity.
Defined.

(** X9.  Encryption is multiplicative: for a key with a non-zero modulus
    and a non-negative exponent, the encryption of a product is the product
    of the encryptions, reduced modulo [n]. *)
Theorem encrypt_multiplicative (pub : PublicKey) (x y : Z) :
  pub_n pub <> 0 -> 0 <= pub_e pub ->
  exists cx cy,
    encrypt pub x = Ret cx /\ encrypt pub y = Ret cy /\
    encrypt pub (x * y) = Ret (cx * cy mod pub_n pub).
Proof.
  intros Hn He. unfold encrypt. rewrite !py_pow_spec by assumption.
  do 2 eexists. split; [reflexivity|]. split; [reflexivity|].
  f_equal. rewrite Z.pow_mul_l. apply Z.mul_mod. assumption.
Qed.

Lemma encrypt_multiplicative_witness :
  exists cx cy,
    encrypt (mkPublicKey 55 3) 4 = Ret cx /\
    encrypt (mkPublicKey 55 3) 6 = Ret cy /\
    encrypt (mkPublicKey 55 3) (4 * 6) = Ret (cx * cy mod 55).
Proof.
  apply (encrypt_multiplicative (mkPublicKey 55 3) 4 6); simpl; lia.
Defined.

(** ** The exponent searches pick the first candidate *)

Lemma py_range_sorted (lo hi step : Z) :
  0 < step -> StronglySorted Z.lt (py_range lo hi step).
Proof.
  intros Hstep. unfold py_range. generalize (range_len lo hi step) as n.
  generalize 0%nat as a. intros a n. revert a.
  induction n as [| n IH]; intros a; simpl; constructor.
  - apply IH.
  - apply Forall_forall. intros x Hx. apply in_map_iff in Hx.
    destruct Hx as [i [<- Hi]]. apply in_seq in Hi. nia.
Qed.

Lemma find_sorted_first (f : Z -> bool) (l : list Z) (x : Z) :
  StronglySorted Z.lt l -> find f l = Some x ->
  forall y, In y l -> y < x -> f y = false.
Proof.
  induction 1 as [| a t Hs IH Ha]; simpl; [discriminate|].
  rewrite Forall_forall in Ha. destruct (f a) eqn:Hfa.
  - intros [= <-] y [<- | Hy] Hlt; [lia|]. specialize (Ha y Hy). lia.
  - intros Hfind y [<- | Hy] Hlt; [assumption|]. apply IH; assumption.
Qed.

Lemma odd_in_range (stop x : Z) :
  3 <= x < stop -> Z.odd x = true -> In x (py_range 3 stop 2).
Proof.
  intros Hx Hodd. apply in_py_range; [lia|]. split; [assumption|].
  apply Z.odd_spec in Hodd. destruct Hodd as [k ->].
  replace (2 * k + 1 - 3) with ((k - 1) * 2) by ring.
  apply Z_mod_mult.
Qed.

Lemma first_or_fail_first (f : Z -> bool) (stop x y : Z) :
  first_or_fail f (py_range 3 stop 2) = Ret x ->
  3 <= y < x -> Z.odd y = true -> f y = false.
Proof.
  unfold first_or_fail.
  destruct (find f (py_range 3 stop 2)) as [z |] eqn:Hf; [|discriminate].
  intros [= ->] Hy Hodd.
  pose proof (find_some _ _ Hf) as [Hin _]. apply odd_range in Hin.
  eapply find_sorted_first; [apply py_range_sorted | exact Hf | | lia]; [lia|].
  apply odd_in_range; [lia | assumption].
Qed.

Lemma exponents_first (p q : Z) (pub : PublicKey) (priv : PrivateKey) :
  exponents p q = Ret (pub, priv) ->
  (forall e', 3 <= e' < pub_e pub -> Z.odd e' = true ->
     are_relatively_prime e' ((p - 1) * (q - 1)) = false) /\
  (forall d', 3 <= d' < priv_d priv -> Z.odd d' = true ->
     d' * pub_e pub mod ((p - 1) * (q - 1)) <> 1).
Proof.
  unfold exponents, find_e, find_d. intros H.
  apply bind_ret in H. destruct H as [e [He H]].
  apply bind_ret in H. destruct H as [d [Hd [= <- <-]]]. cbn [pub_e priv_d].
  split.
  - intros e' He' Hodd.
    apply (first_or_fail_first _ _ _ _ He He' Hodd).
  - intros d' Hd' Hodd.
    pose proof (first_or_fail_first _ _ _ _ Hd Hd' Hodd) as Hf.
    cbv beta in Hf. apply Z.eqb_neq in Hf. assumption.
Qed.

(** X10.  Tie-break of the searches: in a returned pair, no smaller odd
    number from [3] on is coprime with [phi = (p-1)(q-1)] than [e], and no
    smaller one than [d] inverts [e] modulo [phi]. *)
Theorem exponents_are_smallest (fuel : nat) (r : rand) (L : Z)
  (pub : PublicKey) (priv : PrivateKey) :
  make_key_pair fuel r L = Ret (pub, priv) ->
  exists p q,
    Z.prime p /\ Z.prime q /\ pub_n pub = p * q /\
    (forall e', 3 <= e' < pub_e pub -> Z.odd e' = true ->
       Z.gcd e' ((p - 1) * (q - 1)) <> 1) /\
    (forall d', 3 <= d' < priv_d priv -> Z.odd d' = true ->
       d' * pub_e pub mod ((p - 1) * (q - 1)) <> 1).
Proof.
  intros H. apply make_key_pair_ret in H.
  destruct H as [_ [p [q [Hp [Hq [_ [_ Hexp]]]]]]].
  pose proof (exponents_ret _ _ _ _ Hexp) as [Hn [_ [[He _] _]]].
  destruct (exponents_first _ _ _ _ Hexp) as [Hmin_e Hmin_d].
  exists p, q. repeat split; try assumption; try apply Hp; try apply Hq.
  intros e' He' Hodd Hg.
  apply are_relatively_prime_gcd in Hg; [|lia|lia].
  rewrite Hmin_e in Hg by assumption. discriminate.
Qed.

Lemma exponents_are_smallest_witness :
  exists p q,
    Z.prime p /\ Z.prime q /\ 65 = p * q /\
    (forall e', 3 <= e' < 5 -> Z.odd e' = true ->
       Z.gcd e' ((p - 1) * (q - 1)) <> 1) /\
    (forall d', 3 <= d' < 29 -> Z.odd d' = true ->
       d' * 5 mod ((p - 1) * (q - 1)) <> 1).
Proof.
  apply (exponents_are_smallest 1000 (fun i => (i * 7 + 3)%nat) 7
           (mkPublicKey 65 5) (mkPrivateKey 65 29)).
  vm_compute; reflexivity.
Defined.

(** X11.  The public exponent of a returned pair is a prime number. *)
Theorem public_exponent_prime (fuel : nat) (r : rand) (L : Z)
  (pub : PublicKey) (priv : PrivateKey) :
  make_key_pair fuel r L = Ret (pub, priv) -> Z.prime (pub_e pub).
Proof.
  intros H. apply make_key_pair_ret in H.
  destruct H as [_ [p [q [Hp [Hq [_ [_ Hexp]]]]]]].
  pose proof (exponents_ret _ _ _ _ Hexp) as [_ [_ [[He Heo] [_ [Hrp _]]]]].
  destruct (exponents_first _ _ _ _ Hexp) as [Hmin _].
  set (phi := (p - 1) * (q - 1)) in *.
  apply are_relatively_prime_gcd in Hrp; [|lia|lia].
  split; [lia|]. intros m Hm Hdiv.
  assert (Hmo : Z.odd m = true).
  { destruct Hdiv as [k Hk]. rewrite Hk, Z.odd_mul in Heo.
    apply andb_true_iff in Heo. tauto. }
  assert (Hm3 : 3 <= m).
  { destruct (Z.eq_dec m 2) as [-> | Hne]; [discriminate | lia]. }
  assert (Hg : Z.gcd m phi = 1).
  { apply Z.divide_1_r_nonneg; [apply Z.gcd_nonneg|].
    rewrite <- Hrp. apply Z.gcd_greatest.
    - eapply Z.divide_trans; [apply Z.gcd_divide_l | exact Hdiv].
    - apply Z.gcd_divide_r. }
  apply are_relatively_prime_gcd in Hg; [|lia|lia].
  rewrite Hmin in Hg by (assumption || lia). discriminate.
Qed.

Lemma public_exponent_prime_witness : Z.prime 5.
Proof.
  apply (public_exponent_prime 1000 (fun i => (i * 7 + 3)%nat) 7
           (mkPublicKey 65 5) (mkPrivateKey 65 29)).
  vm_compute; reflexivity.
Defined.

(** ** Where [AssertionError] can come from *)

Lemma first_or_fail_found (f : Z -> bool) (l : list Z) (x : Z) :
  In x l -> f x = true -> exists y, first_or_fail f l = Ret y.
Proof.
  intros Hin Hf. unfold first_or_fail.
  destruct (find f l) as [y |] eqn:Hfind; [eexists; reflexivity|].
  rewrite (find_none _ _ Hfind x Hin) in Hf. discriminate.
Qed.

Lemma gcd_pred (n : Z) : Z.gcd (n - 1) n = 1.
Proof.
  apply Z.divide_1_r_nonneg; [apply Z.gcd_nonneg|].
  pose proof (Z.divide_sub_r _ _ _ (Z.gcd_divide_r (n - 1) n)
                (Z.gcd_divide_l (n - 1) n)) as H.
  replace (n - (n - 1)) with 1 in H by ring. exact H.
Qed.

Lemma find_e_found (phi : Z) :
  4 <= phi -> Z.even phi = true -> exists e, find_e phi = Ret e.
Proof.
  intros Hphi Hev. unfold find_e.
  apply (first_or_fail_found _ _ (phi - 1)).
  - apply odd_in_range; [lia|].
    rewrite Z.odd_sub, <- Z.negb_even, Hev. reflexivity.
  - apply are_relatively_prime_gcd; [lia | lia | apply gcd_pred].
Qed.

Lemma find_d_found (e phi : Z) :
  4 <= phi -> Z.even phi = true -> 3 <= e < phi -> Z.gcd e phi = 1 ->
  exists d, find_d e phi = Ret d.
Proof.
  intros Hphi Hev He Hg. unfold find_d.
  destruct (Z.gcd_bezout _ _ _ Hg) as [u [v Huv]].
  set (d := u mod phi).
  assert (Hd : 0 <= d < phi) by (apply Z.mod_pos_bound; lia).
  assert (Hde : d * e mod phi = 1).
  { unfold d. rewrite Z.mul_mod_idemp_l by lia.
    replace (u * e) with (1 + (- v) * phi) by lia.
    rewrite Z.mod_add by lia. apply Z.mod_small. lia. }
  assert (Hodd : Z.odd d = true).
  { pose proof (Z.div_mod (d * e) phi ltac:(lia)) as Hdm. rewrite Hde in Hdm.
    apply Z.even_spec in Hev. destruct Hev as [j Hj].
    assert (Ho : Z.odd (d * e) = true).
    { rewrite Hdm, Hj.
      replace (2 * j * (d * e / (2 * j)) + 1)
        with (1 + 2 * (j * (d * e / (2 * j)))) by ring.
      rewrite Z.odd_add_mul_2. reflexivity. }
    rewrite Z.odd_mul in Ho. apply andb_true_iff in Ho. tauto. }
  assert (Hd1 : d <> 1).
  { intros E. rewrite E, Z.mul_1_l, Z.mod_small in Hde by lia. lia. }
  apply (first_or_fail_found _ _ d).
  - apply odd_in_range; [|assumption].
    destruct (Z.eq_dec d 0) as [E | ?]; [rewrite E in Hodd; discriminate|].
    destruct (Z.eq_dec d 2) as [E | ?]; [rewrite E in Hodd; discriminate|].
    lia.
  - apply Z.eqb_eq. assumption.
Qed.

Lemma prime_two_or_odd (p : Z) : Z.prime p -> p = 2 \/ Z.odd p = true.
Proof.
  intros [Hp1 Hp]. destruct (Z.odd p) eqn:Ho; [right; reflexivity | left].
  rewrite <- Z.negb_even in Ho. apply negb_false_iff, Z.even_spec in Ho.
  destruct Ho as [k Hk].
  destruct (Z.eq_dec p 2) as [| Hne]; [assumption | exfalso].
  apply (Hp 2); [lia | exists k; lia].
Qed.

Lemma totient_even (p q : Z) :
  Z.prime p -> Z.prime q -> p <> q -> 8 <= p * q ->
  4 <= (p - 1) * (q - 1) /\ Z.even ((p - 1) * (q - 1)) = true.
Proof.
  intros Hp Hq Hne Hn.
  pose proof (Z.prime_ge_2 _ Hp). pose proof (Z.prime_ge_2 _ Hq).
  assert (Hev : Z.even ((p - 1) * (q - 1)) = true).
  { rewrite Z.even_mul, !Z.even_sub. apply orb_true_iff.
    destruct (prime_two_or_odd p Hp) as [-> | Hpo].
    - destruct (prime_two_or_odd q Hq) as [-> | Hqo]; [contradiction|].
      right. rewrite <- Z.negb_odd, Hqo. reflexivity.
    - left. rewrite <- Z.negb_odd, Hpo. reflexivity. }
  split; [|assumption].
  assert (H3 : 3 <= (p - 1) * (q - 1)) by nia.
  destruct (Z.eq_dec ((p - 1) * (q - 1)) 3) as [E | ?]; [|lia].
  rewrite E in Hev. discriminate.
Qed.

(** For two different primes whose product is at least [8] both exponent
    searches find a value. *)
Lemma exponents_found (p q : Z) :
  Z.prime p -> Z.prime q -> p <> q -> 8 <= p * q ->
  exists pub priv, exponents p q = Ret (pub, priv).
Proof.
  intros Hp Hq Hne Hn.
  destruct (totient_even p q Hp Hq Hne Hn) as [Hphi Hev].
  unfold exponents.
  destruct (find_e_found _ Hphi Hev) as [e He]. rewrite He. cbn [bind].
  unfold find_e in He. apply first_or_fail_ret in He.
  destruct He as [Hin Hrp]. apply odd_range in Hin.
  apply are_relatively_prime_gcd in Hrp; [|lia|lia].
  destruct (find_d_found e _ Hphi Hev ltac:(tauto) Hrp) as [d Hd].
  rewrite Hd. do 2 eexists. reflexivity.
Qed.

Lemma lower_bound_8 (L : Z) : 4 <= L -> 8 <= 2 ^ (L - 1).
Proof.
  intros HL. change 8 with (2 ^ 3). apply Z.pow_le_mono_r; lia.
Qed.

(** X12.  The searches for [e] and [d] never come back empty: for
    [length >= 4], once the loop over the pool has selected [p] and [q],
    [make_key_pair] returns a key pair.  So an [AssertionError] of
    [make_key_pair] can only come from the selection of [p] and [q]. *)
Theorem exponent_searches_succeed (fuel : nat) (r : rand) (L : Z)
  (primes : list Z) (p q : Z) :
  4 <= L ->
  get_primes fuel (2 ^ (L / 2 - 1)) (2 ^ (L / 2 + 1)) = Ret primes ->
  pick_pq fuel r primes (2 ^ (L - 1)) (2 ^ L - 1) = Ret (p, q) ->
  exists pub priv,
    exponents p q = Ret (pub, priv) /\
    make_key_pair fuel r L = Ret (pub, priv).
Proof.
  intros HL Hprimes Hpq.
  rewrite make_key_pair_steps, Hprimes by assumption. cbn [bind].
  rewrite Hpq. cbn [bind fst snd].
  apply get_primes_sound in Hprimes. destruct Hprimes as [Hs Hall].
  apply pick_pq_ret in Hpq; [|apply sorted_nodup; assumption].
  destruct Hpq as [Hp [Hq [Hne Hb]]]. rewrite Forall_forall in Hall.
  pose proof (lower_bound_8 L HL).
  destruct (exponents_found p q (Hall p Hp) (Hall q Hq) Hne ltac:(lia))
    as [pub [priv E]].
  exists pub, priv. split; assumption.
Qed.

Lemma exponent_searches_succeed_witness :
  exists pub priv,
    exponents 5 11 = Ret (pub, priv) /\
    make_key_pair 20 (fun i => i) 6 = Ret (pub, priv).
Proof.
  apply (exponent_searches_succeed 20 (fun i => i) 6 [5; 7; 11; 13] 5 11).
  - lia.
  - vm_compute; reflexivity.
  - vm_compute; reflexivity.
Defined.

(** ** The random choices do not decide success *)

Lemma in_bounds_sym (n_min n_max p q : Z) :
  in_bounds n_min n_max p q = in_bounds n_min n_max q p.
Proof. unfold in_bounds. rewrite (Z.mul_comm p q). reflexivity. Qed.

Lemma list_remove_other (x y : Z) (l l' : list Z) :
  list_remove x l = Ret l' -> In y l -> y <> x -> In y l'.
Proof.
  intros H Hy Hne. apply list_remove_split in H.
  destruct H as [l1 [l2 [-> ->]]]. apply in_app_iff in Hy. apply in_app_iff.
  destruct Hy as [Hy | [Hy | Hy]]; [left; assumption | congruence | right; assumption].
Qed.

(** As long as the pool holds some admissible pair, the loop finds one,
    whatever is drawn: an entry dropped for lack of a partner belongs to no
    admissible pair of what is left. *)
Lemma pick_pq_found (fuel : nat) (r : rand) (primes : list Z)
  (n_min n_max a b : Z) :
  NoDup primes -> In a primes -> In b primes -> a <> b ->
  in_bounds n_min n_max a b = true ->
  (length primes < fuel)%nat ->
  exists p q, pick_pq fuel r primes n_min n_max = Ret (p, q).
Proof.
  revert r primes. induction fuel as [| fuel IH];
    intros r primes Hnd Ha Hb Hne Hab Hlen; [lia|].
  cbn [pick_pq]. destruct primes as [| c l]; [destruct Ha|].
  destruct (choice_cons r c l) as [x [Hx Hin]]. rewrite Hx. cbn [bind fst snd].
  destruct (list_remove_in x (c :: l) Hin) as [l' Hl']. rewrite Hl'. cbn [bind].
  destruct (list_remove_nodup _ _ _ Hl' Hnd) as [Hnd' [_ [_ Hlen']]].
  destruct (filter (in_bounds n_min n_max x) l') as [| y ys] eqn:Hf.
  - assert (Hnone : forall z, In z l' -> in_bounds n_min n_max x z = false).
    { intros z Hz. destruct (in_bounds n_min n_max x z) eqn:E; [|reflexivity].
      assert (Hzf : In z (filter (in_bounds n_min n_max x) l'))
        by (apply filter_In; tauto).
      rewrite Hf in Hzf. destruct Hzf. }
    assert (Hxa : a <> x).
    { intros <-. rewrite (Hnone b) in Hab; [discriminate|].
      eapply list_remove_other; eauto. }
    assert (Hxb : b <> x).
    { intros <-. rewrite in_bounds_sym, (Hnone a) in Hab; [discriminate|].
      eapply list_remove_other; eauto. }
    apply (IH _ _ Hnd'); try assumption.
    + eapply list_remove_other; eauto.
    + eapply list_remove_other; eauto.
    + rewrite Hlen' in Hlen. lia.
  - destruct (choice_cons (rand_next r) y ys) as [z [Hz _]]. rewrite Hz.
    exists x, z. reflexivity.
Qed.

Lemma pool_has_pair_spec (L : Z) :
  pool_has_pair L = true <->
  exists a b,
    In a (filter (Z.leb (2 ^ (L / 2 - 1))) (sieve (2 ^ (L / 2 + 1)))) /\
    In b (filter (Z.leb (2 ^ (L / 2 - 1))) (sieve (2 ^ (L / 2 + 1)))) /\
    a <> b /\ in_bounds (2 ^ (L - 1)) (2 ^ L - 1) a b = true.
Proof.
  unfold pool_has_pair. cbv zeta. rewrite existsb_exists. split.
  - intros [a [Ha H]]. apply existsb_exists in H. destruct H as [b [Hb H]].
    apply andb_true_iff in H. destruct H as [Hne Hab].
    apply negb_true_iff, Z.eqb_neq in Hne. exists a, b. tauto.
  - intros [a [b [Ha [Hb [Hne Hab]]]]]. exists a. split; [assumption|].
    apply existsb_exists. exists b. split; [assumption|].
    apply andb_true_iff. split; [|assumption].
    apply negb_true_iff, Z.eqb_neq. assumption.
Qed.

(** With enough fuel, the pool decides: a pool with an admissible pair
    gives a key pair for every random source. *)
Lemma make_key_pair_found (fuel : nat) (r : rand) (L : Z) :
  4 <= L -> (enough_fuel (2 ^ (L / 2 + 1)) <= fuel)%nat ->
  pool_has_pair L = true ->
  exists pub priv, make_key_pair fuel r L = Ret (pub, priv).
Proof.
  intros HL Hfuel Hpair. unfold enough_fuel in Hfuel.
  apply pool_has_pair_spec in Hpair.
  destruct Hpair as [a [b [Ha [Hb [Hne Hab]]]]].
  destruct (pool_bounds L HL) as [Hlt _].
  destruct (get_primes_terminates fuel (2 ^ (L / 2 - 1)) (2 ^ (L / 2 + 1)))
    as [primes Hprimes]; [lia|].
  pose proof (get_primes_filter _ _ _ _ Hlt Hprimes) as Hpool.
  pose proof (get_primes_length _ _ _ _ Hprimes) as Hlen.
  pose proof (get_primes_sound _ _ _ _ Hprimes) as [Hs Hall].
  rewrite <- Hpool in Ha, Hb.
  destruct (pick_pq_found fuel r primes _ _ a b
              (sorted_nodup _ Hs) Ha Hb Hne Hab ltac:(lia)) as [p [q Hpq]].
  rewrite make_key_pair_steps, Hprimes by assumption. cbn [bind].
  rewrite Hpq. cbn [bind fst snd].
  apply pick_pq_ret in Hpq; [|apply sorted_nodup; assumption].
  destruct Hpq as [Hp [Hq [Hpq Hbd]]]. rewrite Forall_forall in Hall.
  pose proof (lower_bound_8 L HL).
  apply exponents_found; try lia; auto.
Qed.

Lemma make_key_pair_has_pair (fuel : nat) (r : rand) (L : Z)
  (pub : PublicKey) (priv : PrivateKey) :
  make_key_pair fuel r L = Ret (pub, priv) -> pool_has_pair L = true.
Proof.
  intros H. apply make_key_pair_pool in H.
  destruct H as [HL [primes [p [q [Hprimes [Hpq _]]]]]].
  destruct (pool_bounds L HL) as [Hlt _].
  pose proof (get_primes_filter _ _ _ _ Hlt Hprimes) as Hpool.
  pose proof (get_primes_sound _ _ _ _ Hprimes) as [Hs _].
  apply pick_pq_ret in Hpq; [|apply sorted_nodup; assumption].
  destruct Hpq as [Hp [Hq [Hne Hb]]].
  apply pool_has_pair_spec. exists p, q. rewrite <- Hpool.
  repeat split; try assumption.
  unfold in_bounds. apply andb_true_iff. rewrite !Z.leb_le. assumption.
Qed.

(** X13.  Whether [make_key_pair] returns a key pair does not depend on
    the random choices: with fuel for the loops, if one random source gives
    a pair for [length], every random source does. *)
Theorem success_independent_of_randomness (fuel : nat) (r r' : rand) (L : Z)
  (pub : PublicKey) (priv : PrivateKey) :
  (enough_fuel (2 ^ (L / 2 + 1)) <= fuel)%nat ->
  make_key_pair fuel r L = Ret (pub, priv) ->
  exists pub' priv', make_key_pair fuel r' L = Ret (pub', priv').
Proof.
  intros Hfuel H.
  pose proof (make_key_pair_pool _ _ _ _ _ H) as [HL _].
  apply make_key_pair_found; try assumption.
  eapply make_key_pair_has_pair; eassumption.
Qed.

Lemma success_independent_of_randomness_witness :
  exists pub' priv',
    make_key_pair 20 (fun i => (3 * i + 1)%nat) 6 = Ret (pub', priv').
Proof.
  apply (success_independent_of_randomness 20 (fun i => i)
           (fun i => (3 * i + 1)%nat) 6 (mkPublicKey 55 3) (mkPrivateKey 55 27)).
  - vm_compute; lia.
  - vm_compute; reflexivity.
Defined.

Lemma pool_has_pair_4_16 (L : Z) : 4 <= L <= 16 -> pool_has_pair L = true.
Proof.
  intros HL.
  assert (HLs : L = 4 \/ L = 5 \/ L = 6 \/ L = 7 \/ L = 8 \/ L = 9 \/ L = 10 \/
                L = 11 \/ L = 12 \/ L = 13 \/ L = 14 \/ L = 15 \/ L = 16) by lia.
  repeat (destruct HLs as [-> | HLs]; [vm_compute; reflexivity|]).
  rewrite HLs. vm_compute; reflexivity.
Qed.

(** X14.  For the lengths the module's self-test runs, [4] to [16], and
    fuel for the loops, [make_key_pair] returns a key pair for every random
    source: it raises nothing. *)
Theorem make_key_pair_succeeds_4_16 (fuel : nat) (r : rand) (L : Z) :
  4 <= L <= 16 -> (enough_fuel (2 ^ (L / 2 + 1)) <= fuel)%nat ->
  exists pub priv, make_key_pair fuel r L = Ret (pub, priv).
Proof.
  intros HL Hfuel. apply make_key_pair_found; [lia | assumption |].
  apply pool_has_pair_4_16. assumption.
Qed.

Lemma make_key_pair_succeeds_4_16_witness :
  exists pub priv, make_key_pair 40 (fun i => (5 * i)%nat) 9 = Ret (pub, priv).
Proof.
  apply (make_key_pair_succeeds_4_16 40 (fun i => (5 * i)%nat) 9).
  - lia.
  - vm_compute; lia.
Defined.

(** ** The self-test *)

Lemma pick_pq_st_fst (fuel : nat) (r : rand) (primes : list Z)
  (n_min n_max : Z) :
  pick_pq fuel r primes n_min n_max =
  (x <- pick_pq_st fuel r primes n_min n_max ;; Ret (fst x)).
Proof.
  revert r primes. induction fuel as [| fuel IH]; intros r primes;
    [reflexivity|].
  cbn [pick_pq pick_pq_st]. destruct primes as [| c l]; [reflexivity|].
  destruct (choice_cons r c l) as [x [Hx _]]. rewrite Hx. cbn [bind fst snd].
  destruct (list_remove x (c :: l)) as [l' | e |]; cbn [bind];
    try reflexivity.
  destruct (filter (in_bounds n_min n_max x) l') as [| y ys]; [apply IH|].
  destruct (choice_cons (rand_next r) y ys) as [z [Hz _]]. rewrite Hz.
  reflexivity.
Qed.

(** [make_key_pair] is [make_key_pair_st] with the random source dropped. *)
Lemma make_key_pair_st_fst (fuel : nat) (r : rand) (L : Z) :
  make_key_pair fuel r L =
  (kr <- make_key_pair_st fuel r L ;; Ret (fst kr)).
Proof.
  unfold make_key_pair, make_key_pair_st.
  destruct (L <? 4); [reflexivity|].
  destruct (py_shl 1 (L - 1)) as [n_min | |]; cbn [bind]; try reflexivity.
  destruct (py_shl 1 L) as [top | |]; cbn [bind]; try reflexivity.
  destruct (py_shl 1 (L / 2 - 1)) as [start | |]; cbn [bind]; try reflexivity.
  destruct (py_shl 1 (L / 2 + 1)) as [stop | |]; cbn [bind]; try reflexivity.
  destruct (get_primes fuel start stop) as [primes | |]; cbn [bind];
    try reflexivity.
  rewrite pick_pq_st_fst.
  destruct (pick_pq_st fuel r primes n_min (top - 1)) as [[[p q] r'] | |];
    cbn [bind fst snd]; try reflexivity.
  destruct (exponents p q) as [keys | |]; reflexivity.
Qed.

Lemma make_key_pair_st_ret (fuel : nat) (r : rand) (L : Z)
  (pub : PublicKey) (priv : PrivateKey) :
  make_key_pair fuel r L = Ret (pub, priv) ->
  exists r', make_key_pair_st fuel r L = Ret ((pub, priv), r').
Proof.
  rewrite make_key_pair_st_fst.
  destruct (make_key_pair_st fuel r L) as [[keys r'] | |]; cbn [bind fst];
    try discriminate.
  intros [= ->]. exists r'. reflexivity.
Qed.

Lemma py_pow_fixed (n k : Z) :
  0 < n -> 0 < k -> Z.odd k = true ->
  py_pow (n - 1) k n = Ret (n - 1) /\ py_pow n k n = Ret 0.
Proof.
  intros Hn Hk Hko. split.
  - destruct (py_pow_boundary n k (n - 1) Hn Hk Hko) as [y [-> [_ [_ [Hy _]]]]].
    f_equal. apply Hy. reflexivity.
  - destruct (py_pow_boundary n k n Hn Hk Hko) as [y [-> [_ [Hy _]]]].
    f_equal. apply Hy. apply Z.mod_same. lia.
Qed.

Lemma known_vector_test_passes : known_vector_test = Ret tt.
Proof. vm_compute. reflexivity. Qed.

(** One round of the loop: every assertion holds, one row is printed. *)
Lemma self_test_round_passes (fuel : nat) (st : rand * list (Z * Z)) (L : Z) :
  4 <= L <= 16 -> (enough_fuel 512 <= fuel)%nat ->
  exists r' x y,
    self_test_round fuel st L = Ret (r', snd st ++ [(x, y)]) /\
    0 <= x < 2 ^ L - 3 /\ 0 <= y < 2 ^ L - 1.
Proof.
  intros HL Hfuel.
  assert (Hstop : 2 ^ (L / 2 + 1) <= 2 ^ 9).
  { apply Z.pow_le_mono_r; [lia|].
    assert (L / 2 <= 8) by (apply Z.div_le_upper_bound; lia). lia. }
  change (2 ^ 9) with 512 in Hstop.
  assert (Hfuel' : (enough_fuel (2 ^ (L / 2 + 1)) <= fuel)%nat)
    by (unfold enough_fuel in *; lia).
  destruct (make_key_pair_found fuel (fst st) L ltac:(lia) Hfuel'
              (pool_has_pair_4_16 L HL)) as [pub [priv Hkeys]].
  destruct (make_key_pair_st_ret _ _ _ _ _ Hkeys) as [r1 Hst].
  pose proof (make_key_pair_ret _ _ _ _ _ Hkeys)
    as [_ [p [q [Hp [Hq [Hne [Hb Hexp]]]]]]].
  apply exponents_ret in Hexp.
  destruct Hexp as [Hn [Hn' [[He Heo] [[Hd Hdo] [_ Hde]]]]].
  pose proof (lower_bound_8 L ltac:(lia)) as H8.
  set (n := p * q) in *.
  assert (Hbits : bin_digits n = L).
  { unfold bin_digits.
    destruct (Z.eqb_spec n 0); [lia|]. destruct (Z.ltb_spec n 0); [lia|].
    apply bit_length_range; lia. }
  set (x := Z.of_nat (r1 0%nat) mod (n - 2)).
  assert (Hx : 0 <= x < n - 2) by (apply Z.mod_pos_bound; lia).
  assert (Hy : 0 <= x ^ pub_e pub mod n < n) by (apply Z.mod_pos_bound; lia).
  destruct (py_pow_fixed n (pub_e pub) ltac:(lia) ltac:(lia) Heo) as [He1 He2].
  destruct (py_pow_fixed n (priv_d priv) ltac:(lia) ltac:(lia) Hdo) as [Hd1 Hd2].
  exists (rand_next r1), x, (x ^ pub_e pub mod n).
  split; [|lia].
  unfold self_test_round. rewrite Hst. cbn [bind fst snd].
  rewrite Hn, Hn', Z.eqb_refl. cbn [py_assert bind].
  rewrite Hbits, Z.eqb_refl. cbn [py_assert bind].
  unfold randrange. destruct (Z.leb_spec (n - 2) 0); [lia|].
  cbn [bind fst snd]. fold x.
  unfold encrypt, decrypt. rewrite Hn, Hn'.
  rewrite (py_pow_spec x) by lia. cbn [bind].
  rewrite (py_pow_spec (x ^ pub_e pub mod n)) by lia. cbn [bind].
  assert (Hrt : (x ^ pub_e pub mod n) ^ priv_d priv mod n = x).
  { unfold n. apply rsa_round_trip; try assumption; try lia; fold n; lia. }
  rewrite Hrt, Z.eqb_refl. cbn [py_assert bind].
  rewrite He1. cbn [bind]. rewrite Z.eqb_refl. cbn [py_assert bind].
  rewrite He2. cbn [bind Z.eqb py_assert].
  rewrite Hd1. cbn [bind]. rewrite Z.eqb_refl. cbn [py_assert bind].
  rewrite Hd2. cbn [bind Z.eqb py_assert]. reflexivity.
Qed.

Lemma for_each_rounds (fuel : nat) (l : list Z) (st : rand * list (Z * Z)) :
  (enough_fuel 512 <= fuel)%nat -> Forall (fun L => 4 <= L <= 16) l ->
  exists r' rows,
    for_each (self_test_round fuel) l st = Ret (r', snd st ++ rows) /\
    Forall2 (fun L row => 0 <= fst row < 2 ^ L - 3 /\ 0 <= snd row < 2 ^ L - 1)
      l rows.
Proof.
  intros Hfuel Hl. revert st. induction Hl as [| L l HL _ IH]; intros st.
  - exists (fst st), []. rewrite app_nil_r. destruct st. split; constructor.
  - destruct (self_test_round_passes fuel st L HL Hfuel)
      as [r1 [x [y [Hround Hxy]]]].
    destruct (IH (r1, snd st ++ [(x, y)])) as [r' [rows [Hrest Hrows]]].
    exists r', ((x, y) :: rows). cbn [for_each]. rewrite Hround. cbn [bind].
    rewrite Hrest. cbn [snd]. rewrite <- app_assoc. split; [reflexivity|].
    constructor; assumption.
Qed.

(** X15.  The self-test of the module passes for every random source:
    with fuel for the loops, no assertion fails and no call raises, and
    [13] rows are printed, one per length from [4] to [16], each with
    [0 <= x < 2^length - 3] and [0 <= y < 2^length - 1]. *)
Theorem main_passes (fuel : nat) (r : rand) :
  (enough_fuel 512 <= fuel)%nat ->
  exists rows,
    main fuel r = Ret rows /\
    length rows = 13%nat /\
    Forall2 (fun L row => 0 <= fst row < 2 ^ L - 3 /\ 0 <= snd row < 2 ^ L - 1)
      (py_range 4 17 1) rows.
Proof.
  intros Hfuel. unfold main. rewrite known_vector_test_passes. cbn [bind].
  destruct (for_each_rounds fuel (py_range 4 17 1) (r, []) Hfuel)
    as [r' [rows [Hrun Hrows]]].
  { apply Forall_forall. intros L HL. apply in_py_range in HL; lia. }
  rewrite Hrun. cbn [bind snd app]. exists rows.
  split; [reflexivity|]. split; [|assumption].
  apply Forall2_length in Hrows. rewrite <- Hrows. reflexivity.
Qed.

Lemma main_passes_witness :
  exists rows,
    main 514 (fun i => (7 * i + 2)%nat) = Ret rows /\
    length rows = 13%nat /\
    Forall2 (fun L row => 0 <= fst row < 2 ^ L - 3 /\ 0 <= snd row < 2 ^ L - 1)
      (py_range 4 17 1) rows.
Proof.
  apply (main_passes 514 (fun i => (7 * i + 2)%nat)). vm_compute; lia.
Defined.
